(** * vibechess: the worker's message dispatcher and the engine contract

    The repository ships the binding surface of a chess engine compiled to
    WebAssembly ([docs/pkg/chess.d.ts]) and the worker script that drives it
    (the [handle] function).  This development embeds

    - the JavaScript values that travel through the worker,
    - the [Game] class as an interface whose implementation is a parameter,
    - the worker script itself, written in a small state-and-exception monad,
    - the declaration file as data,
    - and, for the engine whose source is not part of the repository, a model
      written from the specification.  *)

From Stdlib Require Import ZArith String List Lia Bool DecimalString.
From Stdlib Require Import Floats.SpecFloat.
From stdpp Require Import base option list gmap strings.

Set Warnings "-register-all".

Open Scope Z_scope.
Open Scope string_scope.

(* ================================================================== *)
(** * JavaScript values *)
(* ================================================================== *)

(** The values that can cross [postMessage] and the wasm boundary.  A Number
    is an IEEE-754 binary64, described by the standard library's
    [spec_float]; a BigInt is an unbounded integer. *)
Inductive JsValue : Type :=
| JsUndefined
| JsNull
| JsBoolean (b : bool)
| JsNumber (x : spec_float)
| JsBigInt (n : Z)
| JsString (s : string)
| JsArray (xs : list JsValue)
| JsObject (props : list (string * JsValue)).

(** What a [throw] carries: the language's own [TypeError], or whatever a
    callee raised. *)
Inductive Exception : Type :=
| TypeError (what : string)
| RangeError (what : string)
| Raised (v : JsValue).

(** Completion of an expression: a value, or an exception in flight. *)
Inductive completion (A : Type) : Type :=
| Normal (a : A)
| Throw (e : Exception).
Arguments Normal {A} a.
Arguments Throw {A} e.

(* ------------------------------------------------------------------ *)
(** ** [Number(bigint)] and [BigInt(number)] *)
(* ------------------------------------------------------------------ *)

Definition prec64 : Z := 53.
Definition emax64 : Z := 1024.

(** [Number(g)] for a BigInt [g]: the binary64 nearest to the mathematical
    value of [g], ties to even. *)
Definition Number_of_BigInt (g : Z) : spec_float :=
  binary_normalize prec64 emax64 g 0 false.

(** The integer a finite binary64 denotes, when it denotes one. *)
Definition integer_of_float (x : spec_float) : option Z :=
  match x with
  | S754_zero _ => Some 0
  | S754_finite s m e =>
      let v :=
        match e with
        | Z0 => Some (Zpos m)
        | Zpos k => Some (Zpos (Pos.iter xO m k))
        | Zneg k =>
            if Z.eqb (Z.land (Zpos m) (Z.ones (Zpos k))) 0
            then Some (Z.shiftr (Zpos m) (Zpos k))
            else None
        end in
      option_map (fun z => if s then Z.opp z else z) v
  | S754_infinity _ | S754_nan => None
  end.

(** [BigInt(x)] for a Number [x]: a RangeError unless [x] is an integer. *)
Definition BigInt_of_Number (x : spec_float) : completion Z :=
  match integer_of_float x with
  | Some z => Normal z
  | None =>
      Throw (RangeError
               "The number cannot be converted to a BigInt: not an integer")
  end.

(** [BigInt(v)] on the values the worker may find in [args[1]].  Strings,
    arrays and objects go through the host's [ToPrimitive] and
    [StringToBigInt], which are a parameter here. *)
Definition BigInt (StringToBigInt : JsValue -> completion Z) (v : JsValue)
  : completion Z :=
  match v with
  | JsBigInt n => Normal n
  | JsBoolean b => Normal (if b then 1 else 0)
  | JsNumber x => BigInt_of_Number x
  | JsUndefined => Throw (TypeError "Cannot convert undefined to a BigInt")
  | JsNull => Throw (TypeError "Cannot convert null to a BigInt")
  | JsString _ | JsArray _ | JsObject _ => StringToBigInt v
  end.

(* ================================================================== *)
(** * The [Game] class of [chess.d.ts] *)
(* ================================================================== *)

(** The class is implemented in WebAssembly; the worker only sees its
    methods.  An implementation is a state type together with one function
    per method.  Every method may update the instance and may throw.  The
    arguments are the JavaScript values the caller passed, before the glue
    code coerces them. *)
Class Game : Type := {
  instance : Type;
  constructor : completion instance;
  get_board_state : instance -> completion JsValue * instance;
  get_eval_breakdown : instance -> completion JsValue * instance;
  get_hint : list JsValue -> instance -> completion JsValue * instance;
  get_last_evals : instance -> completion Z * instance;
  get_legal_moves_for_square :
    list JsValue -> instance -> completion JsValue * instance;
  make_ai_move : instance -> completion JsValue * instance;
  make_move : list JsValue -> instance -> completion JsValue * instance;
  set_auto_deepen : JsValue -> Z -> instance -> completion unit * instance;
  set_depth : list JsValue -> instance -> completion unit * instance;
  set_module : list JsValue -> instance -> completion unit * instance
}.

(** The engine [E] with an evaluation counter that stands at [n]. *)
Definition with_counter (E : Game) (n : Z) : Game :=
  {| instance := @instance E;
     constructor := @constructor E;
     get_board_state := @get_board_state E;
     get_eval_breakdown := @get_eval_breakdown E;
     get_hint := @get_hint E;
     get_last_evals := fun g => (Normal n, g);
     get_legal_moves_for_square := @get_legal_moves_for_square E;
     make_ai_move := @make_ai_move E;
     make_move := @make_move E;
     set_auto_deepen := @set_auto_deepen E;
     set_depth := @set_depth E;
     set_module := @set_module E |}.

(* ================================================================== *)
(** * The worker *)
(* ================================================================== *)

(** [o[key]] on the own properties of an object. *)
Fixpoint property (props : list (string * JsValue)) (key : string)
  : JsValue :=
  match props with
  | [] => JsUndefined
  | (k, v) :: rest => if String.eqb k key then v else property rest key
  end.

(** The object has an own property [key]. *)
Fixpoint has_own (props : list (string * JsValue)) (key : string) : bool :=
  match props with
  | [] => false
  | (k, _) :: rest => if String.eqb k key then true else has_own rest key
  end.

(** [v === label] for a string [label], as [switch (v)] compares [v] with
    [case label:]: only the string itself is equal to it. *)
Definition selects (v : JsValue) (label : string) : bool :=
  match v with
  | JsString s => String.eqb s label
  | _ => false
  end.

(** Whether a value is a given string can be decided. *)
#[global] Instance is_string_dec (v : JsValue) (s : string)
  : Decision (v = JsString s).
Proof.
  destruct v as [| | | | |t| |]; try (right; discriminate).
  destruct (decide (t = s)) as [->|Hn]; [left; reflexivity|right; congruence].
Defined.

(** The decimal digits of an integer, with [-] for a negative one. *)
Definition decimal (n : Z) : string := NilZero.string_of_int (Z.to_int n).

Section ToString.

(** [Number::toString]: the digits the host chooses for a Number (the
    language leaves the last digit open); a parameter. *)
Variable NumberToString : spec_float -> string.

(** The string that [+] with a string appends for [v]:
    [ToString(ToPrimitive(v))].  An array is the join of its elements, with
    nothing for [undefined] and [null].  An object that came through
    [postMessage] holds no function, so its conversion uses the inherited
    methods and gives [[object Object]], unless an own property [toString]
    hides the inherited method: then no method converts it, which is a
    TypeError (an own [valueOf] changes nothing, since the inherited one
    returns the object itself). *)
Fixpoint ToString (v : JsValue) : completion string :=
  match v with
  | JsUndefined => Normal "undefined"
  | JsNull => Normal "null"
  | JsBoolean b => Normal (if b then "true" else "false")
  | JsNumber x => Normal (NumberToString x)
  | JsBigInt n => Normal (decimal n)
  | JsString s => Normal s
  | JsArray xs =>
      (fix join (xs : list JsValue) : completion string :=
         match xs with
         | [] => Normal ""
         | x :: rest =>
             match
               match x with
               | JsUndefined | JsNull => Normal ""
               | _ => ToString x
               end
             with
             | Normal s =>
                 match rest with
                 | [] => Normal s
                 | _ :: _ =>
                     match join rest with
                     | Normal t => Normal (s ++ "," ++ t)
                     | Throw e => Throw e
                     end
                 end
             | Throw e => Throw e
             end
         end) xs
  | JsObject props =>
      if has_own props "toString"
      then Throw (TypeError "Cannot convert object to primitive value")
      else Normal "[object Object]"
  end.

End ToString.

(** [v.key] for a key that no prototype defines: an object yields its own
    property, every other value [undefined]. *)
Definition get (v : JsValue) (key : string) : JsValue :=
  match v with
  | JsObject props => property props key
  | _ => JsUndefined
  end.

(** The bindings of [const { id, method, args } = msg]. *)
Definition id (msg : JsValue) : JsValue := get msg "id".
Definition method (msg : JsValue) : JsValue := get msg "method".
Definition args (msg : JsValue) : JsValue := get msg "args".

(** The characters of a string, one string each. *)
Definition characters (s : string) : list JsValue :=
  (fun c => JsString (String c EmptyString)) <$> list_ascii_of_string s.

(** [...a]: the elements of an array, the characters of a string; nothing
    else that a message can hold is iterable. *)
Definition iterate (a : JsValue) : completion (list JsValue) :=
  match a with
  | JsArray xs => Normal xs
  | JsString s => Normal (characters s)
  | _ => Throw (TypeError "args is not iterable")
  end.

(** [a[i]]: a missing element reads as [undefined]; indexing [undefined] or
    [null] is a TypeError. *)
Definition subscript (a : JsValue) (i : nat) : completion JsValue :=
  match a with
  | JsUndefined =>
      Throw (TypeError "Cannot read properties of undefined")
  | JsNull => Throw (TypeError "Cannot read properties of null")
  | JsArray xs => Normal (default JsUndefined (xs !! i))
  | JsString s => Normal (default JsUndefined (characters s !! i))
  | JsObject props =>
      Normal (property props (NilZero.string_of_uint (Nat.to_uint i)))
  | JsBoolean _ | JsNumber _ | JsBigInt _ => Normal JsUndefined
  end.

(** What the worker posts. *)
Inductive Posted : Type :=
| Reply (id : JsValue) (result : JsValue)       (* { id, result } *)
| Failure (id : JsValue) (error : string)       (* { id, error } *)
| Init (timestamp : string)                     (* { type: 'init', timestamp } *)
| InitError (error : JsValue).                  (* { type: 'init_error', error } *)

Definition posted_id (p : Posted) : option JsValue :=
  match p with
  | Reply i _ | Failure i _ => Some i
  | Init _ | InitError _ => None
  end.

(** A reference to a [Game] object. *)
Definition ref : Type := positive.

(** The calls that reach the engine, in order. *)
Inductive Call : Type :=
| CallNew (r : ref)
| CallFree (r : ref)
| CallMethod (r : ref) (name : string).

Section Worker.
Context {G : Game}.
Variable StringToBigInt : JsValue -> completion Z.
Variable NumberToString : spec_float -> string.

(** The worker's global [game], the [Game] objects that are alive, the
    messages posted so far and the engine calls made so far (both newest
    first). *)
Record Worker : Type := {
  game : option ref;
  heap : gmap ref instance;
  posted : list Posted;
  calls : list Call
}.

(** [let game = null;] *)
Definition boot : Worker :=
  {| game := None; heap := ∅; posted := []; calls := [] |}.

(** Statements of the worker: they read and write the worker's state and
    complete normally or throw. *)
Definition Job (A : Type) : Type := Worker -> completion A * Worker.

#[global] Instance Job_ret : MRet Job := fun A a w => (Normal a, w).
#[global] Instance Job_bind : MBind Job := fun A B k c w =>
  match c w with
  | (Normal a, w') => k a w'
  | (Throw e, w') => (Throw e, w')
  end.

Definition throw {A} (e : Exception) : Job A := fun w => (Throw e, w).

Definition lift {A} (c : completion A) : Job A := fun w => (c, w).

Definition postMessage (p : Posted) : Job unit := fun w =>
  (Normal tt,
   {| game := game w; heap := heap w;
      posted := p :: posted w; calls := calls w |}).

Definition read_game : Job (option ref) := fun w => (Normal (game w), w).

Definition write_game (r : option ref) : Job unit := fun w =>
  (Normal tt,
   {| game := r; heap := heap w; posted := posted w; calls := calls w |}).

(** [new Game()]: the constructor runs, and on success the new object gets
    a reference no live object has. *)
Definition new_Game : Job ref := fun w =>
  let r := fresh (dom (heap w)) in
  match constructor with
  | Normal g =>
      (Normal r,
       {| game := game w; heap := <[r := g]> (heap w);
          posted := posted w; calls := CallNew r :: calls w |})
  | Throw e => (Throw e, w)
  end.

(** [r.free()], also reachable as [r[Symbol.dispose]()]: releases the
    object.  No statement of the worker uses it. *)
Definition free (r : ref) : Job unit := fun w =>
  (Normal tt,
   {| game := game w; heap := delete r (heap w);
      posted := posted w; calls := CallFree r :: calls w |}).

(** [game.m(...)]: reading the property on [null] is a TypeError, before
    any argument is evaluated. *)
Definition deref (name : string) : Job ref :=
  r ← read_game;
  match r with
  | Some r => mret r
  | None =>
      throw (TypeError ("Cannot read properties of null (reading '" ++ name ++ "')"))
  end.

(** A method call on the object [r]. *)
Definition invoke {A} (name : string)
    (m : instance -> completion A * instance) (r : ref) : Job A := fun w =>
  match heap w !! r with
  | Some g =>
      let '(c, g') := m g in
      (c, {| game := game w; heap := <[r := g']> (heap w);
             posted := posted w; calls := CallMethod r name :: calls w |})
  | None => (Throw (Raised (JsString "null pointer passed to rust")), w)
  end.

(** [...args] and [args[i]] as statements. *)
Definition spread (a : JsValue) : Job (list JsValue) := lift (iterate a).

Definition index (a : JsValue) (i : nat) : Job JsValue :=
  lift (subscript a i).

(** [const { id, method, args } = msg]: [undefined] and [null] cannot be
    destructured. *)
Definition destructure (msg : JsValue) : Job unit :=
  match msg with
  | JsUndefined =>
      throw (TypeError "Cannot destructure 'msg' as it is undefined")
  | JsNull => throw (TypeError "Cannot destructure 'msg' as it is null")
  | _ => mret tt
  end.

(** The commands of the [switch] in [handle]. *)
Definition known_methods : list string :=
  [ "new_game"; "get_board_state"; "make_move"; "make_ai_move"; "get_hint";
    "get_legal_moves_for_square"; "get_eval_breakdown"; "get_last_evals";
    "set_module"; "set_depth"; "set_auto_deepen" ].

(** The commands that dereference [game]. *)
Definition engine_backed : list string := tail known_methods.

Definition setter_methods : list string :=
  [ "set_module"; "set_depth"; "set_auto_deepen" ].

(** The [switch (method)] of [handle]: [Some result] when the case ends in
    [break], [None] when the [default] case has posted its error and
    returned.  The [default] case builds its string before it posts. *)
Definition dispatch (msg : JsValue) : Job (option JsValue) :=
  let m := method msg in
  if selects m "new_game" then
    g ← new_Game;
    write_game (Some g);;
    mret (Some JsNull)
  else if selects m "get_board_state" then
    g ← deref "get_board_state";
    result ← invoke "get_board_state" get_board_state g;
    mret (Some result)
  else if selects m "make_move" then
    g ← deref "make_move";
    a ← spread (args msg);
    result ← invoke "make_move" (make_move a) g;
    mret (Some result)
  else if selects m "make_ai_move" then
    g ← deref "make_ai_move";
    result ← invoke "make_ai_move" make_ai_move g;
    mret (Some result)
  else if selects m "get_hint" then
    g ← deref "get_hint";
    a ← spread (args msg);
    result ← invoke "get_hint" (get_hint a) g;
    mret (Some result)
  else if selects m "get_legal_moves_for_square" then
    g ← deref "get_legal_moves_for_square";
    a ← spread (args msg);
    result ← invoke "get_legal_moves_for_square"
               (get_legal_moves_for_square a) g;
    mret (Some result)
  else if selects m "get_eval_breakdown" then
    g ← deref "get_eval_breakdown";
    result ← invoke "get_eval_breakdown" get_eval_breakdown g;
    mret (Some result)
  else if selects m "get_last_evals" then
    g ← deref "get_last_evals";
    n ← invoke "get_last_evals" get_last_evals g;
    mret (Some (JsNumber (Number_of_BigInt n)))
  else if selects m "set_module" then
    g ← deref "set_module";
    a ← spread (args msg);
    invoke "set_module" (set_module a) g;;
    mret (Some JsNull)
  else if selects m "set_depth" then
    g ← deref "set_depth";
    a ← spread (args msg);
    invoke "set_depth" (set_depth a) g;;
    mret (Some JsNull)
  else if selects m "set_auto_deepen" then
    g ← deref "set_auto_deepen";
    a0 ← index (args msg) 0;
    a1 ← index (args msg) 1;
    n ← lift (BigInt StringToBigInt a1);
    invoke "set_auto_deepen" (set_auto_deepen a0 n) g;;
    mret (Some JsNull)
  else
    name ← lift (ToString NumberToString m);
    postMessage (Failure (id msg) ("unknown method: " ++ name));;
    mret None.

(** [function handle(msg)]. *)
Definition handle (msg : JsValue) : Job unit :=
  destructure msg;;
  r ← dispatch msg;
  match r with
  | Some result => postMessage (Reply (id msg) result)
  | None => mret tt
  end.

(** [onmessage = (e) => handle(e.data)]: the worker handles its messages
    one after the other; an exception that escapes [handle] is reported by
    the host and the worker goes on with the next message. *)
Definition onmessage (w : Worker) (msg : JsValue) : Worker :=
  snd (handle msg w).

Definition run (msgs : list JsValue) (w : Worker) : Worker :=
  fold_left onmessage msgs w.

(** The [case] of an engine-backed method as a function of the object
    [g] the handle refers to: an exception while the arguments are
    evaluated, or the completion of the call, converted to the value the
    case assigns to [result], with the object after the call.  The last
    branch of [engine_step] is the case of [set_auto_deepen]. *)
Definition converted {A} (f : A -> JsValue) (r : completion A * instance)
  : completion JsValue * instance :=
  (match r.1 with Normal a => Normal (f a) | Throw e => Throw e end, r.2).

Definition spread_into (msg : JsValue)
    (k : list JsValue -> completion JsValue * instance)
  : Exception + (completion JsValue * instance) :=
  match iterate (args msg) with
  | Normal a => inr (k a)
  | Throw e => inl e
  end.

Definition engine_step (msg : JsValue) (g : instance)
  : Exception + (completion JsValue * instance) :=
  let m := method msg in
  if selects m "get_board_state" then inr (get_board_state g)
  else if selects m "make_move" then
    spread_into msg (fun a => make_move a g)
  else if selects m "make_ai_move" then inr (make_ai_move g)
  else if selects m "get_hint" then
    spread_into msg (fun a => get_hint a g)
  else if selects m "get_legal_moves_for_square" then
    spread_into msg (fun a => get_legal_moves_for_square a g)
  else if selects m "get_eval_breakdown" then inr (get_eval_breakdown g)
  else if selects m "get_last_evals" then
    inr (converted (fun n => JsNumber (Number_of_BigInt n)) (get_last_evals g))
  else if selects m "set_module" then
    spread_into msg (fun a => converted (fun _ => JsNull) (set_module a g))
  else if selects m "set_depth" then
    spread_into msg (fun a => converted (fun _ => JsNull) (set_depth a g))
  else
    match subscript (args msg) 0 with
    | Normal a0 =>
        match subscript (args msg) 1 with
        | Normal a1 =>
            match BigInt StringToBigInt a1 with
            | Normal n =>
                inr (converted (fun _ => JsNull) (set_auto_deepen a0 n g))
            | Throw e => inl e
            end
        | Throw e => inl e
        end
    | Throw e => inl e
    end.

(** The state after a call of the method [name] on the object [r]. *)
Definition called (r : ref) (name : string) (g' : instance) (w : Worker)
  : Worker :=
  {| game := game w; heap := <[r := g']> (heap w);
     posted := posted w; calls := CallMethod r name :: calls w |}.

Definition answered (p : Posted) (w : Worker) : Worker :=
  {| game := game w; heap := heap w;
     posted := p :: posted w; calls := calls w |}.

(** The engine call a request leads to, on the object [g], and what it
    returns; a BigInt is returned as such.  The setters return nothing. *)
Definition returned (msg : JsValue) (g : instance)
  : option (completion JsValue) :=
  let m := method msg in
  let a := match iterate (args msg) with Normal a => a | Throw _ => [] end in
  if selects m "get_board_state" then Some (get_board_state g).1
  else if selects m "make_move" then Some (make_move a g).1
  else if selects m "make_ai_move" then Some (make_ai_move g).1
  else if selects m "get_hint" then Some (get_hint a g).1
  else if selects m "get_legal_moves_for_square"
    then Some (get_legal_moves_for_square a g).1
  else if selects m "get_eval_breakdown" then Some (get_eval_breakdown g).1
  else if selects m "get_last_evals" then
    Some match (get_last_evals g).1 with
         | Normal n => Normal (JsBigInt n)
         | Throw e => Throw e
         end
  else None.

(** The value the [case] assigns to [result] from the returned value
    [v]: [Number(v)] for [get_last_evals], [v] itself otherwise. *)
Definition as_posted (msg : JsValue) (v : JsValue) : JsValue :=
  if selects (method msg) "get_last_evals" then
    match v with
    | JsBigInt n => JsNumber (Number_of_BigInt n)
    | _ => v
    end
  else v.

(** The object the handle refers to, if any. *)
Definition current (w : Worker) : option instance :=
  r ← game w; heap w !! r.

(** [result] holds the value [v]: it is [v], or the Number that denotes
    the BigInt [v]. *)
Definition holds (result v : JsValue) : Prop :=
  result = v
  ∨ ∃ n x, v = JsBigInt n ∧ result = JsNumber x ∧ integer_of_float x = Some n.

(** The response to a request that ran to completion carries what the
    engine returned: the reading of the property that takes every result
    to hold the returned value itself. *)
Definition replies_hold_returns : Prop :=
  ∀ msg m w w',
    method msg = JsString m → m ∈ known_methods →
    handle msg w = (Normal tt, w') →
    ∃ result,
      posted w' = Reply (id msg) result :: posted w
      ∧ if bool_decide (m ∈ "new_game" :: setter_methods)
        then result = JsNull
        else ∃ g v, current w = Some g
                    ∧ returned msg g = Some (Normal v)
                    ∧ holds result v.

(** An engine call that throws is answered by some message that carries
    the request's id: the reading of the property that takes a thrown
    exception for the engine's error signal. *)
Definition surfaces_thrown_errors : Prop :=
  ∀ msg m w g g' e,
    method msg = JsString m → m ∈ engine_backed →
    current w = Some g →
    engine_step msg g = inr (Throw e, g') →
    ∃ p, p ∈ posted (onmessage w msg) ∧ posted_id p = Some (id msg).

(** A message whose method is not in the command set is answered by some
    message that carries the request's id: the reading of the property
    that takes every message the worker can receive. *)
Definition reports_every_unknown_method : Prop :=
  ∀ msg w,
    (∀ m, method msg = JsString m → m ∉ known_methods) →
    ∃ p, p ∈ posted (onmessage w msg) ∧ posted_id p = Some (id msg).

(** The situations in which a message finds the worker. *)
Inductive Situation (msg : JsValue) (w : Worker) : Prop :=
  | Unknown : (∀ m, method msg = JsString m → m ∉ known_methods) → Situation msg w
  | Fresh : method msg = JsString "new_game" → Situation msg w
  | Null m :
      method msg = JsString m → m ∈ engine_backed → game w = None → Situation msg w
  | Dangling m r :
      method msg = JsString m → m ∈ engine_backed →
      game w = Some r → heap w !! r = None →
      Situation msg w
  | Live m r g :
      method msg = JsString m → m ∈ engine_backed →
      game w = Some r → heap w !! r = Some g →
      Situation msg w.

(** The handle refers to a live object. *)
Definition linked (w : Worker) : Prop :=
  ∃ r g, game w = Some r ∧ heap w !! r = Some g.

(** Every object the worker has created is alive. *)
Definition tracked (w : Worker) : Prop :=
  ∀ r, CallNew r ∈ calls w → is_Some (heap w !! r).

(** [initialize()]: [await init()] loads the module and may reject; then
    [build_timestamp()] is called and its result posted. *)
Definition initialize (init : completion unit)
    (build_timestamp : completion string) : Job unit :=
  lift init;;
  timestamp ← lift build_timestamp;
  postMessage (Init timestamp).

(** [err.message]: the language's errors carry their message; reading a
    property of [null] or [undefined] is a TypeError; a primitive or an
    array has no such property. *)
Definition message (err : Exception) : completion JsValue :=
  match err with
  | TypeError what | RangeError what => Normal (JsString what)
  | Raised JsUndefined =>
      Throw (TypeError "Cannot read properties of undefined (reading 'message')")
  | Raised JsNull =>
      Throw (TypeError "Cannot read properties of null (reading 'message')")
  | Raised (JsObject props) => Normal (property props "message")
  | Raised _ => Normal JsUndefined
  end.

(** [p.catch(h)]: the handler runs on the exception [p] ended with. *)
Definition catch {A} (p : Job A) (h : Exception -> Job A) : Job A := fun w =>
  match p w with
  | (Normal a, w') => (Normal a, w')
  | (Throw err, w') => h err w'
  end.

(** The last statement of the worker,
    [initialize().catch(err => { postMessage({ type: 'init_error', ... }) })]. *)
Definition startup (init : completion unit)
    (build_timestamp : completion string) : Job unit :=
  catch (initialize init build_timestamp)
    (fun err =>
       error ← lift (message err);
       postMessage (InitError error)).

(** The object [g] after the request [msg] has been handled with the handle
    on it: an engine-backed request whose arguments evaluate leaves what the
    call leaves, every other request leaves [g] as it is. *)
Definition advance (g : instance) (msg : JsValue) : instance :=
  match method msg with
  | JsString m =>
      if bool_decide (m ∈ engine_backed) then
        match engine_step msg g with
        | inr (_, g') => g'
        | inl _ => g
        end
      else g
  | _ => g
  end.

(** The ids of the messages posted so far, oldest first. *)
Definition posted_ids (w : Worker) : list JsValue :=
  omap posted_id (reverse (posted w)).

(** The commands whose case reads [args]. *)
Definition argument_methods : list string :=
  [ "make_move"; "get_hint"; "get_legal_moves_for_square";
    "set_module"; "set_depth"; "set_auto_deepen" ].

(** What the case of the setter [m] leaves once the engine call has
    completed with [c]. *)
Definition after_setter (r : ref) (msg : JsValue) (m : string)
    (c : completion unit * instance) (w : Worker) : completion unit * Worker :=
  match c.1 with
  | Normal _ =>
      (Normal tt, answered (Reply (id msg) JsNull) (called r m c.2 w))
  | Throw e => (Throw e, called r m c.2 w)
  end.

(** The engine takes the request [msg] whatever state the object is in: the
    arguments evaluate and the call returns. *)
Definition accepted (msg : JsValue) : Prop :=
  ∀ g, ∃ v g', engine_step msg g = inr (Normal v, g').

(** The message can be answered when it names no command: it can be
    destructured and its method has a string. *)
Definition nameable (msg : JsValue) : Prop :=
  msg ≠ JsUndefined ∧ msg ≠ JsNull
  ∧ ∃ name, ToString NumberToString (method msg) = Normal name.

End Worker.

(* ================================================================== *)
(** * The engine, from the specification *)
(* ================================================================== *)

(** Modelled from the spec: the engine (position and rules, move generator,
    evaluation, search, game controller), whose source is not part of the
    repository: only the binding surface above is.  Every definition of
    this module is written from the specification's sections 3 and 4. *)
Module Engine.

#[local] Open Scope list_scope.
#[local] Open Scope Z_scope.

(* ---------------------------------------------------------------- *)
(** ** Position *)
(* ---------------------------------------------------------------- *)

Inductive Color : Type := White | Black.
Inductive PieceKind : Type := Pawn | Knight | Bishop | Rook | Queen | King.

#[global] Instance Color_eq_dec : EqDecision Color.
Proof. solve_decision. Defined.
#[global] Instance PieceKind_eq_dec : EqDecision PieceKind.
Proof. solve_decision. Defined.

Record Piece : Type := { kind : PieceKind; color : Color }.

#[global] Instance Piece_eq_dec : EqDecision Piece.
Proof. solve_decision. Defined.

(** A square is (row, column); row 0 is White's back rank, column 0 is
    the a-file. *)
Definition Square : Type := Z * Z.

Definition opponent (c : Color) : Color :=
  match c with White => Black | Black => White end.

(** Modelled from the spec: the Position of section 3 (the engine's source
    is missing): an 8x8 grid of optional pieces, the side to move, four
    castling rights, the optional en-passant target and the two move
    counters. *)
Record Position : Type := {
  board : list (option Piece);
  side_to_move : Color;
  castle_wk : bool;
  castle_wq : bool;
  castle_bk : bool;
  castle_bq : bool;
  en_passant : option Square;
  halfmove_clock : Z;
  fullmove_number : Z
}.

(** Modelled from the spec: the Move of section 3: origin, destination and
    optional promotion kind. *)
Record Move : Type := {
  from : Square;
  to : Square;
  promotion : option PieceKind
}.

#[global] Instance Move_eq_dec : EqDecision Move.
Proof. solve_decision. Defined.

(** Board coordinates are bounds-checked (0-7). *)
Definition on_board (sq : Square) : bool :=
  (0 <=? sq.1) && (sq.1 <? 8) && (0 <=? sq.2) && (sq.2 <? 8).

Definition index_of (sq : Square) : nat := Z.to_nat (8 * sq.1 + sq.2).

Definition piece_at (b : list (option Piece)) (sq : Square) : option Piece :=
  if on_board sq then mjoin (b !! index_of sq) else None.

Definition put (b : list (option Piece)) (sq : Square) (x : option Piece)
  : list (option Piece) :=
  if on_board sq then <[index_of sq := x]> b else b.

Definition all_squares : list Square :=
  r ← [0; 1; 2; 3; 4; 5; 6; 7]; c ← [0; 1; 2; 3; 4; 5; 6; 7]; [(r, c)].

Definition shift (sq : Square) (d : Z * Z) : Square :=
  (sq.1 + d.1, sq.2 + d.2).

Definition has_color (c : Color) (x : option Piece) : bool :=
  match x with Some q => bool_decide (color q = c) | None => false end.

Definition is_piece (k : PieceKind) (c : Color) (x : option Piece) : bool :=
  bool_decide (x = Some {| kind := k; color := c |}).

(** The standard starting position. *)
Definition back_rank (c : Color) : list (option Piece) :=
  (fun k => Some {| kind := k; color := c |})
    <$> [Rook; Knight; Bishop; Queen; King; Bishop; Knight; Rook].

Definition pawn_rank (c : Color) : list (option Piece) :=
  replicate 8 (Some {| kind := Pawn; color := c |}).

Definition start_board : list (option Piece) :=
  back_rank White ++ pawn_rank White ++ replicate 32 None
    ++ pawn_rank Black ++ back_rank Black.

Definition start : Position :=
  {| board := start_board; side_to_move := White;
     castle_wk := true; castle_wq := true;
     castle_bk := true; castle_bq := true;
     en_passant := None; halfmove_clock := 0; fullmove_number := 1 |}.

(* ---------------------------------------------------------------- *)
(** ** Attacks *)
(* ---------------------------------------------------------------- *)

Definition knight_steps : list (Z * Z) :=
  [(1, 2); (2, 1); (2, -1); (1, -2); (-1, -2); (-2, -1); (-2, 1); (-1, 2)].

Definition king_steps : list (Z * Z) :=
  [(1, 0); (1, 1); (0, 1); (-1, 1); (-1, 0); (-1, -1); (0, -1); (1, -1)].

Definition rook_dirs : list (Z * Z) := [(1, 0); (0, 1); (-1, 0); (0, -1)].
Definition bishop_dirs : list (Z * Z) := [(1, 1); (-1, 1); (-1, -1); (1, -1)].

(** Sliding pieces stop at the first occupied square, which they reach. *)
Fixpoint ray (b : list (option Piece)) (sq : Square) (d : Z * Z) (n : nat)
  : list Square :=
  match n with
  | O => []
  | S n' =>
      let sq' := shift sq d in
      if on_board sq' then
        match piece_at b sq' with
        | None => sq' :: ray b sq' d n'
        | Some _ => [sq']
        end
      else []
  end.

Definition steps (sq : Square) (ds : list (Z * Z)) : list Square :=
  filter (fun s => on_board s = true) (shift sq <$> ds).

Definition forward (c : Color) : Z :=
  match c with White => 1 | Black => -1 end.

(** The squares the piece [q] standing on [sq] attacks. *)
Definition attacks (b : list (option Piece)) (sq : Square) (q : Piece)
  : list Square :=
  match kind q with
  | Pawn => steps sq [(forward (color q), -1); (forward (color q), 1)]
  | Knight => steps sq knight_steps
  | King => steps sq king_steps
  | Rook => d ← rook_dirs; ray b sq d 7
  | Bishop => d ← bishop_dirs; ray b sq d 7
  | Queen => d ← rook_dirs ++ bishop_dirs; ray b sq d 7
  end.

(** Modelled from the spec: "is square attacked" of section 4.1: is
    [target] attacked by a piece of colour [c]? *)
Definition attacked (b : list (option Piece)) (target : Square) (c : Color)
  : bool :=
  existsb
    (fun sq =>
       match piece_at b sq with
       | Some q =>
           if bool_decide (color q = c)
           then bool_decide (target ∈ attacks b sq q)
           else false
       | None => false
       end)
    all_squares.

(** Modelled from the spec: "in check" of section 4.1: is a king of
    colour [c] attacked? *)
Definition in_check (b : list (option Piece)) (c : Color) : bool :=
  existsb
    (fun sq =>
       if is_piece King c (piece_at b sq)
       then attacked b sq (opponent c)
       else false)
    all_squares.

(* ---------------------------------------------------------------- *)
(** ** Applying a move *)
(* ---------------------------------------------------------------- *)

Definition last_rank (c : Color) : Z :=
  match c with White => 7 | Black => 0 end.

Definition pawn_home (c : Color) : Z :=
  match c with White => 1 | Black => 6 end.

Definition home_rank (c : Color) : Z :=
  match c with White => 0 | Black => 7 end.

(** A right is lost for good once the king or the rook involved has moved
    or the rook has been captured: any move from or to the king's or the
    rook's home square clears it. *)
Definition touches (m : Move) (sq : Square) : bool :=
  bool_decide (from m = sq) || bool_decide (to m = sq).

Definition keeps_right (m : Move) (c : Color) (rook_col : Z) : bool :=
  negb (touches m (home_rank c, 4)) && negb (touches m (home_rank c, rook_col)).

(** Modelled from the spec: [apply(move)] of section 4.1 (the engine's
    source is missing).  A move from an empty square leaves the position
    as it is. *)
Definition apply (p : Position) (m : Move) : Position :=
  match piece_at (board p) (from m) with
  | None => p
  | Some q =>
      let c := color q in
      let b := board p in
      let is_pawn := bool_decide (kind q = Pawn) in
      let is_king := bool_decide (kind q = King) in
      let capture := bool_decide (piece_at b (to m) ≠ None) in
      let ep_capture :=
        is_pawn && bool_decide (en_passant p = Some (to m))
        && bool_decide ((from m).2 ≠ (to m).2) && negb capture in
      let promotes := is_pawn && bool_decide ((to m).1 = last_rank c) in
      let landed :=
        if promotes
        then {| kind := default Queen (promotion m); color := c |}
        else q in
      let b1 := put (put b (from m) None) (to m) (Some landed) in
      let b2 :=
        if ep_capture then put b1 ((from m).1, (to m).2) None else b1 in
      let b3 :=
        if is_king && bool_decide ((to m).2 - (from m).2 = 2) then
          put (put b2 ((from m).1, 7) None) ((from m).1, 5)
              (Some {| kind := Rook; color := c |})
        else if is_king && bool_decide ((to m).2 - (from m).2 = -2) then
          put (put b2 ((from m).1, 0) None) ((from m).1, 3)
              (Some {| kind := Rook; color := c |})
        else b2 in
      {| board := b3;
         side_to_move := opponent (side_to_move p);
         castle_wk := castle_wk p && keeps_right m White 7;
         castle_wq := castle_wq p && keeps_right m White 0;
         castle_bk := castle_bk p && keeps_right m Black 7;
         castle_bq := castle_bq p && keeps_right m Black 0;
         en_passant :=
           if is_pawn && bool_decide (Z.abs ((to m).1 - (from m).1) = 2)
           then Some ((from m).1 + forward c, (from m).2)
           else None;
         halfmove_clock :=
           if is_pawn || capture then 0 else halfmove_clock p + 1;
         fullmove_number :=
           match side_to_move p with
           | White => fullmove_number p
           | Black => fullmove_number p + 1
           end |}
  end.

(* ---------------------------------------------------------------- *)
(** ** Move generation *)
(* ---------------------------------------------------------------- *)

Definition plain (a b : Square) : Move :=
  {| from := a; to := b; promotion := None |}.

(** A pawn move to the last rank is four moves, one per promotion kind. *)
Definition pawn_move (c : Color) (a b : Square) : list Move :=
  if bool_decide (b.1 = last_rank c) then
    (fun k => {| from := a; to := b; promotion := Some k |})
      <$> [Queen; Rook; Bishop; Knight]
  else [plain a b].

Definition pawn_moves (p : Position) (sq : Square) (c : Color) : list Move :=
  let b := board p in
  let one := shift sq (forward c, 0) in
  let two := shift sq (2 * forward c, 0) in
  let pushes :=
    if on_board one && bool_decide (piece_at b one = None) then
      one ::
      (if bool_decide (sq.1 = pawn_home c)
          && bool_decide (piece_at b two = None)
       then [two] else [])
    else [] in
  let captures :=
    filter
      (fun s => has_color (opponent c) (piece_at b s) = true
                ∨ en_passant p = Some s)
      (attacks b sq {| kind := Pawn; color := c |}) in
  s ← pushes ++ captures; pawn_move c sq s.

(** Castling: the right is still held, king and rook are on their home
    squares, the squares between them are empty, the king is not in check
    and neither passes through nor lands on an attacked square. *)
Definition castle (p : Position) (c : Color) (right : bool)
    (rook_col : Z) (between : list Z) (path : list Z) (dest : Z) : list Move :=
  let b := board p in
  let r := home_rank c in
  if right
     && is_piece King c (piece_at b (r, 4))
     && is_piece Rook c (piece_at b (r, rook_col))
     && forallb (fun k => bool_decide (piece_at b (r, k) = None)) between
  then
    if forallb (fun k => negb (attacked b (r, k) (opponent c))) (4 :: path)
    then [plain (r, 4) (r, dest)] else []
  else [].

Definition castling_moves (p : Position) : list Move :=
  match side_to_move p with
  | White =>
      castle p White (castle_wk p) 7 [5; 6] [5; 6] 6
      ++ castle p White (castle_wq p) 0 [1; 2; 3] [3; 2] 2
  | Black =>
      castle p Black (castle_bk p) 7 [5; 6] [5; 6] 6
      ++ castle p Black (castle_bq p) 0 [1; 2; 3] [3; 2] 2
  end.

(** The pseudo-legal moves of the piece on [sq]. *)
Definition piece_moves (p : Position) (sq : Square) : list Move :=
  match piece_at (board p) sq with
  | Some q =>
      if bool_decide (color q = side_to_move p) then
        match kind q with
        | Pawn => pawn_moves p sq (color q)
        | _ =>
            plain sq <$>
              filter (fun s => has_color (color q) (piece_at (board p) s) = false)
                     (attacks (board p) sq q)
        end
      else []
  | None => []
  end.

Definition pseudo_legal_moves (p : Position) : list Move :=
  (sq ← all_squares; piece_moves p sq) ++ castling_moves p.

(** A move is kept when it does not leave the mover's king in check. *)
Definition safe (p : Position) (m : Move) : bool :=
  negb (in_check (board (apply p m)) (side_to_move p)).

(** Modelled from the spec: [legal_moves] of section 4.2 (the engine's
    source is missing): the pseudo-legal moves of every piece of the side
    to move, filtered by king safety. *)
Definition legal_moves (p : Position) : list Move :=
  filter (fun m => safe p m = true) (pseudo_legal_moves p).

(** Modelled from the spec: [legal_moves_for_square] of section 4.2: the
    destinations of the legal moves that start on [sq]. *)
Definition legal_moves_for_square (p : Position) (sq : Square) : list Square :=
  remove_dups (to <$> filter (fun m => from m = sq) (legal_moves p)).

Inductive Terminal : Type :=
  | NotTerminal | Checkmate | Stalemate | DrawFiftyMove | DrawInsufficientMaterial.

Definition minor_or_none (x : option Piece) : bool :=
  match x with
  | None => true
  | Some q =>
      match kind q with King | Knight | Bishop => true | _ => false end
  end.

(** Only kings, or kings and a single minor piece. *)
Definition insufficient_material (b : list (option Piece)) : bool :=
  forallb minor_or_none b
  && (length (filter (fun x => x ≠ None) b) <=? 3)%nat.

(** Modelled from the spec: [is_terminal] of section 4.1, computed afresh
    from the position. *)
Definition is_terminal (p : Position) : Terminal :=
  match legal_moves p with
  | [] => if in_check (board p) (side_to_move p) then Checkmate else Stalemate
  | _ :: _ =>
      if 100 <=? halfmove_clock p then DrawFiftyMove
      else if insufficient_material (board p) then DrawInsufficientMaterial
      else NotTerminal
  end.

Definition play (p : Position) (ms : list Move) : Position :=
  fold_left apply ms p.

(** Modelled from the spec: the positions reachable via legal play from
    the standard starting position. *)
Inductive reachable : Position -> Prop :=
  | reachable_start : reachable start
  | reachable_apply p m :
      reachable p -> m ∈ legal_moves p -> reachable (apply p m).

(* ---------------------------------------------------------------- *)
(** ** Evaluation, search and the game controller *)
(* ---------------------------------------------------------------- *)

(** Modelled from the spec: the EngineConfig of section 3: the search
    depth, the per-module flags, the auto-deepen flag and its threshold. *)
Record EngineConfig : Type := {
  depth : nat;
  modules : gmap string bool;
  auto_deepen : bool;
  min_evals : Z
}.

(** Modelled from the spec: the EvaluationBreakdown of section 3: a mapping
    from module name to contribution, plus the aggregated total. *)
Record EvaluationBreakdown : Type := {
  contributions : gmap string Z;
  total : Z
}.

(** Modelled from the spec: the SearchResult of section 3. *)
Record SearchResult : Type := {
  best_move : option Move;
  score : Z;
  nodes : Z;
  depth_reached : nat
}.

Inductive Error : Type := IllegalMove | InvalidConfiguration.

Section Controller.

(** The fixed, ordered registry of named scoring modules, each a pure
    function of the position; the hard ceiling on the depth of the
    auto-deepening loop; the depth a new game starts with. *)
Variable registry : list (string * (Position -> Z)).
Variable depth_ceiling : nat.
Variable default_depth : nat.

Definition enabled (cfg : EngineConfig) (name : string) : bool :=
  default false (modules cfg !! name).

Definition score_module (cfg : EngineConfig) (p : Position)
    (acc : EvaluationBreakdown) (m : string * (Position -> Z))
  : EvaluationBreakdown :=
  if enabled cfg m.1 then
    {| contributions := <[m.1 := m.2 p]> (contributions acc);
       total := total acc + m.2 p |}
  else acc.

(** Modelled from the spec: [evaluate] of section 4.3 (the engine's
    source is missing): the modules are visited in registry order; an
    enabled module adds its contribution to the total and records it
    under its name; a disabled module is skipped. *)
Definition evaluate (cfg : EngineConfig) (p : Position)
  : EvaluationBreakdown :=
  fold_left (score_module cfg p) registry
            {| contributions := ∅; total := 0 |}.

(** The contributions of the enabled modules, in registry order, and
    the sum of a breakdown's entries. *)
Definition enabled_contributions (cfg : EngineConfig) (p : Position)
  : list Z :=
  (fun m => m.2 p) <$> filter (fun m => enabled cfg m.1 = true) registry.

Definition sum_of_entries (m : gmap string Z) : Z :=
  map_fold (fun _ v s => v + s) 0 m.

(** One move of the alpha-beta loop: [best] is the best score so far
    (also the lower bound), [n] counts the evaluated nodes; after a
    cut-off the remaining moves are skipped. *)
Definition try_move (rec : Position -> Z -> Z -> Z * Z) (p : Position)
    (beta : Z) (acc : Z * Z * bool) (m : Move) : Z * Z * bool :=
  let '(best, n, cut) := acc in
  if cut then acc
  else
    let '(s, k) := rec (apply p m) (- beta) (- best) in
    let best' := Z.max best (- s) in
    (best', n + k, beta <=? best').

(** Modelled from the spec: the algorithm of section 4.4: minimax, in
    negamax form, with alpha-beta pruning; the score is from the point of
    view of the side to move; a leaf (depth exhausted or terminal position)
    invokes the evaluation. *)
Fixpoint negamax (cfg : EngineConfig) (d : nat) (p : Position)
    (alpha beta : Z) : Z * Z :=
  match d with
  | O => (total (evaluate cfg p), 1)
  | S d' =>
      match is_terminal p with
      | NotTerminal =>
          let '(best, n, _) :=
            fold_left (try_move (negamax cfg d') p beta)
                      (legal_moves p) (alpha, 0, false) in
          (best, n)
      | _ => (total (evaluate cfg p), 1)
      end
  end.

Definition infinity : Z := 1000000000.

(** The root of the search: the moves are tried in generation order and
    a later move replaces the choice only when it scores strictly
    better. *)
Definition try_root (cfg : EngineConfig) (d : nat) (p : Position)
    (acc : option Move * Z * Z) (m : Move) : option Move * Z * Z :=
  let '(choice, best, n) := acc in
  let '(s, k) := negamax cfg d (apply p m) (- infinity) (- best) in
  if best <? - s then (Some m, - s, n + k) else
    match choice with
    | None => (Some m, best, n + k)
    | Some _ => (choice, best, n + k)
    end.

(** Modelled from the spec: the fixed-depth mode of section 4.4: a search
    to exactly depth [d]; without a legal move, the null move with the
    evaluation of the position. *)
Definition search_fixed (cfg : EngineConfig) (d : nat) (p : Position)
  : SearchResult :=
  match legal_moves p with
  | [] =>
      {| best_move := None; score := total (evaluate cfg p);
         nodes := 1; depth_reached := d |}
  | ms =>
      let '(choice, best, n) :=
        fold_left (try_root cfg (pred d) p) ms (None, - infinity, 0) in
      {| best_move := choice; score := best;
         nodes := n; depth_reached := d |}
  end.

(** Modelled from the spec: the auto-deepening loop of section 4.4: after
    a completed fixed-depth search, when fewer than [min_evals] nodes were
    evaluated and the ceiling is not reached, search again one ply deeper. *)
Fixpoint deepen (cfg : EngineConfig) (room : nat) (d : nat) (p : Position)
  : SearchResult :=
  let r := search_fixed cfg d p in
  match room with
  | O => r
  | S room' =>
      if nodes r <? min_evals cfg then deepen cfg room' (S d) p else r
  end.

(** Modelled from the spec: [search] of section 4.4 (the engine's source
    is missing): fixed depth, or auto-deepening from the configured
    depth up to the ceiling. *)
Definition search (cfg : EngineConfig) (p : Position) : SearchResult :=
  if auto_deepen cfg
  then deepen cfg (depth_ceiling - depth cfg) (depth cfg) p
  else search_fixed cfg (depth cfg) p.

(** Modelled from the spec: [hint] of section 4.4: the same search at an
    explicitly supplied depth. *)
Definition hint (cfg : EngineConfig) (p : Position) (d : nat)
  : SearchResult :=
  search_fixed cfg d p.

(** Modelled from the spec: the Game Controller of section 4.5: the
    current position, the move history, the configuration and the node
    count of the last completed search. *)
Record GameController : Type := {
  position : Position;
  history : list Move;
  config : EngineConfig;
  last_evals : Z
}.

Definition new : GameController :=
  {| position := start;
     history := [];
     config :=
       {| depth := default_depth;
          modules := list_to_map ((fun m => (m.1, true)) <$> registry);
          auto_deepen := false;
          min_evals := 0 |};
     last_evals := 0 |}.

(** The legal move a request names: the promotion kind defaults to the
    queen when none is supplied. *)
Definition resolve (p : Position) (a b : Square) (promo : option PieceKind)
  : option Move :=
  let wanted m :=
    bool_decide (from m = a) && bool_decide (to m = b)
    && (bool_decide (promotion m = promo)
        || bool_decide (promo = None)
           && bool_decide (promotion m = Some Queen)) in
  head (filter (fun m => wanted m = true) (legal_moves p)).

Definition commit (g : GameController) (m : Move) (evals : Z)
  : GameController :=
  {| position := apply (position g) m;
     history := history g ++ [m];
     config := config g;
     last_evals := evals |}.

Definition make_move (g : GameController) (a b : Square)
    (promo : option PieceKind) : Error + GameController :=
  match resolve (position g) a b promo with
  | Some m => inr (commit g m (last_evals g))
  | None => inl IllegalMove
  end.

(** Modelled from the spec: [make_ai_move] of section 4.5: the search runs
    on the current position with the current configuration and its node
    count is retained; the move it returns, if any, is applied. *)
Definition make_ai_move (g : GameController)
  : GameController * SearchResult :=
  let r := search (config g) (position g) in
  match best_move r with
  | Some m => (commit g m (nodes r), r)
  | None =>
      ({| position := position g; history := history g;
          config := config g; last_evals := nodes r |}, r)
  end.

Definition get_hint (g : GameController) (d : nat)
  : GameController * SearchResult :=
  (g, hint (config g) (position g) d).

(** Modelled from the spec: [get_last_evals]: the node count of the last
    completed search. *)
Definition get_last_evals (g : GameController) : Z := last_evals g.

Definition get_eval_breakdown (g : GameController) : EvaluationBreakdown :=
  evaluate (config g) (position g).

Definition get_legal_moves_for_square (g : GameController) (sq : Square)
  : list Square :=
  legal_moves_for_square (position g) sq.

Definition with_config (g : GameController) (cfg : EngineConfig)
  : GameController :=
  {| position := position g; history := history g;
     config := cfg; last_evals := last_evals g |}.

Definition with_module (cfg : EngineConfig) (name : string) (on : bool)
  : EngineConfig :=
  {| depth := depth cfg;
     modules := <[name := on]> (modules cfg);
     auto_deepen := auto_deepen cfg;
     min_evals := min_evals cfg |}.

(** Modelled from the spec: [set_module] of section 4.3: an unknown name
    fails and the configuration is retained. *)
Definition set_module (g : GameController) (name : string) (on : bool)
  : Error + GameController :=
  if bool_decide (name ∈ registry.*1)
  then inr (with_config g (with_module (config g) name on))
  else inl InvalidConfiguration.

Definition set_depth (g : GameController) (d : Z)
  : Error + GameController :=
  if 0 <? d then
    inr (with_config g
           {| depth := Z.to_nat d;
              modules := modules (config g);
              auto_deepen := auto_deepen (config g);
              min_evals := min_evals (config g) |})
  else inl InvalidConfiguration.

Definition set_auto_deepen (g : GameController) (on : bool) (n : Z)
  : Error + GameController :=
  if 0 <=? n then
    inr (with_config g
           {| depth := depth (config g);
              modules := modules (config g);
              auto_deepen := on;
              min_evals := n |})
  else inl InvalidConfiguration.

End Controller.

(** Two scoring modules, for running the controller: the material balance
    and the mobility of the side to move. *)
Definition piece_value (k : PieceKind) : Z :=
  match k with
  | Pawn => 100 | Knight => 320 | Bishop => 330
  | Rook => 500 | Queen => 900 | King => 0
  end.

Definition material (p : Position) : Z :=
  foldr
    (fun x acc =>
       match x with
       | Some q =>
           if bool_decide (color q = side_to_move p)
           then acc + piece_value (kind q)
           else acc - piece_value (kind q)
       | None => acc
       end)
    0 (board p).

Definition mobility (p : Position) : Z :=
  Z.of_nat (length (pseudo_legal_moves p)).

Definition sample_registry : list (string * (Position -> Z)) :=
  [("material", material); ("mobility", mobility)].

End Engine.

(* ================================================================== *)
(** * The controller behind the [Game] class *)
(* ================================================================== *)

(** Modelled from the spec: the glue between the Game Controller and the
    class of [chess.d.ts] (the engine's source is missing): arguments are
    coerced to squares, depths and names; results are plain objects; a
    recoverable condition of section 7 is reported in the returned value by
    the methods that return one and thrown by the setters, which return
    nothing.  The specification leaves the shapes of the results to the
    host; the shapes below serve the examples. *)
Module Binding.
Import Engine.

#[local] Open Scope list_scope.
#[local] Open Scope Z_scope.

Definition num (z : Z) : JsValue := JsNumber (Number_of_BigInt z).

Definition to_int (v : JsValue) : option Z :=
  match v with
  | JsNumber x => integer_of_float x
  | _ => None
  end.

Definition to_kind (v : JsValue) : option (option PieceKind) :=
  match v with
  | JsUndefined | JsNull => Some None
  | JsString s =>
      if String.eqb s "q" then Some (Some Queen)
      else if String.eqb s "r" then Some (Some Rook)
      else if String.eqb s "b" then Some (Some Bishop)
      else if String.eqb s "n" then Some (Some Knight)
      else None
  | _ => None
  end.

Definition kind_name (k : PieceKind) : string :=
  match k with
  | Pawn => "p" | Knight => "n" | Bishop => "b"
  | Rook => "r" | Queen => "q" | King => "k"
  end.

Definition color_name (c : Color) : string :=
  match c with White => "white" | Black => "black" end.

Definition cell (x : option Piece) : JsValue :=
  match x with
  | Some q =>
      JsObject [("kind", JsString (kind_name (kind q)));
                ("color", JsString (color_name (color q)))]
  | None => JsNull
  end.

Definition terminal_name (t : Terminal) : string :=
  match t with
  | NotTerminal => "none"
  | Checkmate => "checkmate"
  | Stalemate => "stalemate"
  | DrawFiftyMove => "draw-by-fifty-move"
  | DrawInsufficientMaterial => "draw-by-insufficient-material"
  end.

Definition square_value (sq : Square) : JsValue :=
  JsArray [num sq.1; num sq.2].

Definition move_value (m : Move) : JsValue :=
  JsObject [("from", square_value (from m)); ("to", square_value (to m));
            ("promotion",
             match promotion m with
             | Some k => JsString (kind_name k)
             | None => JsNull
             end)].

Definition board_state (p : Position) : JsValue :=
  JsObject [("board", JsArray (cell <$> board p));
            ("turn", JsString (color_name (side_to_move p)));
            ("status", JsString (terminal_name (is_terminal p)))].

Definition result_value (r : SearchResult) : JsValue :=
  JsObject [("move",
             match best_move r with
             | Some m => move_value m
             | None => JsNull
             end);
            ("score", num (score r));
            ("evals", num (nodes r));
            ("depth", num (Z.of_nat (depth_reached r)))].

Definition breakdown_value (e : EvaluationBreakdown) : JsValue :=
  JsObject (("total", num (total e))
            :: (prod_map (fun s : string => s) num <$> map_to_list (contributions e))).

(** A condition reported in a returned value, and a condition thrown. *)
Definition condition (what : string) : completion JsValue :=
  Normal (JsObject [("error", JsString what)]).

Definition invalid {A} (what : string) : completion A :=
  Throw (Raised (JsString what)).

Section Bound.
Variable registry : list (string * (Position -> Z)).
Variable depth_ceiling : nat.
Variable default_depth : nat.

Definition bound_make_move (a : list JsValue) (g : GameController)
  : completion JsValue * GameController :=
  match to_int (default JsUndefined (a !! 0%nat)),
        to_int (default JsUndefined (a !! 1%nat)),
        to_int (default JsUndefined (a !! 2%nat)),
        to_int (default JsUndefined (a !! 3%nat)),
        to_kind (default JsUndefined (a !! 4%nat)) with
  | Some r1, Some c1, Some r2, Some c2, Some k =>
      match make_move g (r1, c1) (r2, c2) k with
      | inr g' => (Normal (board_state (position g')), g')
      | inl _ => (condition "illegal move", g)
      end
  | _, _, _, _, _ => (condition "illegal move", g)
  end.

Definition bound_make_ai_move (g : GameController)
  : completion JsValue * GameController :=
  let '(g', r) := make_ai_move registry depth_ceiling g in
  (Normal (JsObject [("state", board_state (position g'));
                     ("search", result_value r)]), g').

Definition bound_get_hint (a : list JsValue) (g : GameController)
  : completion JsValue * GameController :=
  match to_int (default JsUndefined (a !! 0%nat)) with
  | Some d =>
      if 0 <? d
      then (Normal (result_value (get_hint registry g (Z.to_nat d)).2), g)
      else (condition "invalid depth", g)
  | None => (condition "invalid depth", g)
  end.

Definition bound_get_legal_moves (a : list JsValue) (g : GameController)
  : completion JsValue * GameController :=
  match to_int (default JsUndefined (a !! 0%nat)),
        to_int (default JsUndefined (a !! 1%nat)) with
  | Some r, Some c =>
      (Normal (JsArray (square_value <$> get_legal_moves_for_square g (r, c))), g)
  | _, _ => (Normal (JsArray []), g)
  end.

Definition settle (r : Error + GameController) (what : string) (g : GameController)
  : completion unit * GameController :=
  match r with
  | inr g' => (Normal tt, g')
  | inl _ => (invalid what, g)
  end.

Definition bound_set_module (a : list JsValue) (g : GameController)
  : completion unit * GameController :=
  match a !! 0%nat, a !! 1%nat with
  | Some (JsString name), Some (JsBoolean on) =>
      settle (set_module registry g name on) "unknown module" g
  | _, _ => (invalid "unknown module", g)
  end.

Definition bound_set_depth (a : list JsValue) (g : GameController)
  : completion unit * GameController :=
  match to_int (default JsUndefined (a !! 0%nat)) with
  | Some d => settle (set_depth g d) "invalid depth" g
  | None => (invalid "invalid depth", g)
  end.

Definition bound_set_auto_deepen (on : JsValue) (n : Z) (g : GameController)
  : completion unit * GameController :=
  match on with
  | JsBoolean b => settle (set_auto_deepen g b n) "invalid threshold" g
  | _ => (invalid "invalid threshold", g)
  end.

(** The class, method by method in the order of the interface. *)
Definition bind : Game :=
  Build_Game
    GameController
    (Normal (new registry default_depth))
    (fun g => (Normal (board_state (position g)), g))
    (fun g => (Normal (breakdown_value (get_eval_breakdown registry g)), g))
    bound_get_hint
    (fun g => (Normal (get_last_evals g), g))
    bound_get_legal_moves
    bound_make_ai_move
    bound_make_move
    bound_set_auto_deepen
    bound_set_depth
    bound_set_module.

End Bound.

(** The engine the examples run: two modules, depth 1, ceiling 2. *)
Definition sample : Game := bind sample_registry 2 1.

(** Strings, arrays and objects are not BigInts here. *)
Definition no_parse (v : JsValue) : completion Z :=
  Throw (Raised (JsString "SyntaxError: Cannot convert to a BigInt")).

(** Numbers print in full here: the sign, the digits of the integer part
    and, for a fraction, the digits of its finite expansion. *)
Fixpoint fraction_digits (steps : nat) (r d : Z) : string :=
  match steps with
  | O => ""
  | S steps' =>
      if Z.eqb r 0 then ""
      else String.append (decimal (10 * r / d))
             (fraction_digits steps' ((10 * r) mod d) d)
  end.

Definition in_full (x : spec_float) : string :=
  match x with
  | S754_nan => "NaN"
  | S754_infinity s => if s then "-Infinity" else "Infinity"
  | S754_zero _ => "0"
  | S754_finite s m e =>
      String.append (if s then "-" else "")
        match e with
        | Z.neg k =>
            let d := 2 ^ Z.pos k in
            let r := Z.pos m mod d in
            String.append (decimal (Z.pos m / d))
              (if Z.eqb r 0 then ""
               else String.append "." (fraction_digits (Pos.to_nat k) r d))
        | _ => decimal (Z.pos m * 2 ^ e)
        end
  end.

(** The message [{ id, method, args }]. *)
Definition request (i : Z) (m : string) (a : list JsValue) : JsValue :=
  JsObject [("id", JsBigInt i); ("method", JsString m); ("args", JsArray a)].

(** The message [{ id: 5n, method: { toString: 1, valueOf: 1 } }]: its
    method is an object that no method converts to a string. *)
Definition unnameable : JsValue :=
  JsObject [("id", JsBigInt 5);
            ("method", JsObject [("toString", num 1); ("valueOf", num 1)])].

(** The worker on the sample engine, after the first [new_game]. *)
Definition opened : Worker (G := sample) :=
  run (G := sample) no_parse in_full [request 1 "new_game" []] boot.

End Binding.

(* ================================================================== *)
(** * The declarations of [chess.d.ts] *)
(* ================================================================== *)

Module Declarations.

Inductive TsType : Type :=
  | TsAny | TsVoid | TsNumber | TsBigint | TsString | TsBoolean
  | TsOrNull (t : TsType).

Record Param : Type := {
  param_name : string;
  param_type : TsType;
  optional : bool
}.

Inductive MemberKind : Type := Method | Constructor.

#[global] Instance MemberKind_eq_dec : EqDecision MemberKind.
Proof. solve_decision. Defined.

Record Member : Type := {
  member_kind : MemberKind;
  member_name : string;
  params : list Param;
  returns : TsType
}.

Definition req (n : string) (t : TsType) : Param :=
  {| param_name := n; param_type := t; optional := false |}.

Definition opt (n : string) (t : TsType) : Param :=
  {| param_name := n; param_type := t; optional := true |}.

Definition meth (n : string) (ps : list Param) (t : TsType) : Member :=
  {| member_kind := Method; member_name := n; params := ps; returns := t |}.

(** [export class Game { ... }], member by member. *)
Definition Game_declaration : list Member :=
  [ meth "free" [] TsVoid;
    meth "[Symbol.dispose]" [] TsVoid;
    meth "get_board_state" [] TsAny;
    meth "get_eval_breakdown" [] TsAny;
    meth "get_hint" [req "depth" TsNumber] TsAny;
    meth "get_last_evals" [] TsBigint;
    meth "get_legal_moves_for_square"
         [req "row" TsNumber; req "col" TsNumber] TsAny;
    meth "make_ai_move" [] TsAny;
    meth "make_move"
         [req "from_row" TsNumber; req "from_col" TsNumber;
          req "to_row" TsNumber; req "to_col" TsNumber;
          opt "promotion" (TsOrNull TsString)] TsAny;
    {| member_kind := Constructor; member_name := "constructor";
       params := []; returns := TsVoid |};
    meth "set_auto_deepen"
         [req "enabled" TsBoolean; req "min_evals" TsBigint] TsVoid;
    meth "set_depth" [req "depth" TsNumber] TsVoid;
    meth "set_module" [req "name" TsString; req "enabled" TsBoolean] TsVoid ].

(** [export function build_timestamp(): string;], and the other exported
    functions and classes of the module. *)
Inductive Export : Type :=
  | ExportClass (name : string) (members : list Member)
  | ExportFunction (name : string) (arity : nat) (returns : option TsType).

Definition exports : list Export :=
  [ ExportClass "Game" Game_declaration;
    ExportFunction "build_timestamp" 0 (Some TsString);
    ExportFunction "initSync" 1 None;
    ExportFunction "default" 1 None ].

(** A parameter as the command set writes it: [name] or [name?]. *)
Definition show_param (p : Param) : string :=
  if optional p then param_name p ++ "?" else param_name p.

(** The parameter list of the method called [n]. *)
Definition signature (n : string) : option (list string) :=
  (fun m => show_param <$> params m)
    <$> head (filter (fun m => member_kind m = Method ∧ member_name m = n)
                  Game_declaration).

(** The command set of the specification's section 6. *)
Definition command_set : list (string * list string) :=
  [ ("make_move", ["from_row"; "from_col"; "to_row"; "to_col"; "promotion?"]);
    ("make_ai_move", []);
    ("get_board_state", []);
    ("get_legal_moves_for_square", ["row"; "col"]);
    ("get_hint", ["depth"]);
    ("get_eval_breakdown", []);
    ("get_last_evals", []);
    ("set_module", ["name"; "enabled"]);
    ("set_depth", ["depth"]);
    ("set_auto_deepen", ["enabled"; "min_evals"]) ].

Definition method_names : list string :=
  member_name <$> filter (fun m => member_kind m = Method) Game_declaration.

End Declarations.

(* ================================================================== *)
(** * [Number] and [BigInt] *)
(* ================================================================== *)

Section NumberFacts.

#[local] Open Scope Z_scope.

Lemma digits2_pos_size p : digits2_pos p = Pos.size p.
Proof. induction p; simpl; congruence. Qed.

Lemma digits2_pos_le_53 p : Zpos p < 2 ^ 53 -> Zpos (digits2_pos p) <= 53.
Proof.
  intros Hp. rewrite digits2_pos_size.
  pose proof (Pos.size_le p) as Hle.
  destruct (Z.le_gt_cases (Zpos (Pos.size p)) 53) as [|Hgt]; [done|].
  exfalso.
  assert (2 ^ 54 <= Zpos (2 ^ Pos.size p)).
  { rewrite Pos2Z.inj_pow. apply Z.pow_le_mono_r; lia. }
  assert (Zpos (2 ^ Pos.size p) <= Zpos p~0) by (apply Pos2Z.pos_le_pos, Hle).
  change (2 ^ 54) with (2 * 2 ^ 53) in *. lia.
Qed.

Lemma iter_xO_shiftl m d : Zpos (Pos.iter xO m d) = Z.shiftl (Zpos m) (Zpos d).
Proof.
  unfold Z.shiftl. induction d using Pos.peano_ind.
  - reflexivity.
  - rewrite !Pos.iter_succ, <- IHd. reflexivity.
Qed.

Lemma digits2_pos_iter_xO m d :
  digits2_pos (Pos.iter xO m d) = (digits2_pos m + d)%positive.
Proof.
  induction d using Pos.peano_ind.
  - simpl. lia.
  - rewrite Pos.iter_succ. simpl. rewrite IHd. lia.
Qed.

Lemma shr_fexp_canonical m e :
  fexp prec64 emax64 (Zpos (digits2_pos m) + e) = e ->
  shr_fexp prec64 emax64 (Zpos m) e loc_Exact
  = ({| shr_m := Zpos m; shr_r := false; shr_s := false |}, e).
Proof.
  intros H. unfold shr_fexp. simpl Zdigits2. rewrite H, Z.sub_diag.
  reflexivity.
Qed.

Lemma binary_round_aux_canonical s m e :
  fexp prec64 emax64 (Zpos (digits2_pos m) + e) = e ->
  e <= emax64 - prec64 ->
  binary_round_aux prec64 emax64 s (Zpos m) e loc_Exact = S754_finite s m e.
Proof.
  intros H He. unfold binary_round_aux.
  rewrite shr_fexp_canonical by done. simpl.
  rewrite shr_fexp_canonical by done. simpl.
  apply Z.leb_le in He. by rewrite He.
Qed.

Lemma binary_round_small s p :
  Zpos p < 2 ^ 53 ->
  exists m e,
    binary_round prec64 emax64 s p 0 = S754_finite s m e
    /\ e <= 0 /\ Zpos m = Zpos p * 2 ^ (- e).
Proof.
  intros Hp. pose proof (digits2_pos_le_53 p Hp) as Hd.
  unfold binary_round, shl_align.
  assert (fexp prec64 emax64 (Z.pos (digits2_pos p) + 0)
          = Z.pos (digits2_pos p) - 53) as ->.
  { unfold fexp, emin, prec64, emax64. lia. }
  rewrite Z.sub_0_r.
  destruct (Z.pos (digits2_pos p) - 53) as [|k|k] eqn:Hk; [| lia |].
  - exists p, 0. split; [|simpl; lia].
    apply binary_round_aux_canonical; unfold fexp, emin, prec64, emax64; lia.
  - exists (Pos.iter xO p k), (Z.neg k). split; [|split; [lia|]].
    + apply binary_round_aux_canonical; [|unfold prec64, emax64; lia].
      rewrite digits2_pos_iter_xO. unfold fexp, emin, prec64, emax64. lia.
    + rewrite iter_xO_shiftl, Z.shiftl_mul_pow2 by lia. reflexivity.
Qed.

Lemma integer_of_scaled s m e z :
  e <= 0 -> Zpos m = z * 2 ^ (- e) ->
  integer_of_float (S754_finite s m e) = Some (if s then - z else z).
Proof.
  intros He Hm. unfold integer_of_float.
  destruct e as [|k|k]; [| lia |].
  - simpl in Hm. rewrite Z.mul_1_r in Hm. by rewrite Hm.
  - change (- Z.neg k) with (Z.pos k) in Hm.
    rewrite Z.land_ones, Z.shiftr_div_pow2 by lia.
    rewrite Hm, Z.mod_mul, Z.div_mul by (apply Z.pow_nonzero; lia).
    reflexivity.
Qed.

Lemma Number_exact (g : Z) :
  - 2 ^ 53 <= g <= 2 ^ 53 ->
  BigInt_of_Number (Number_of_BigInt g) = Normal g.
Proof.
  intros Hg. unfold BigInt_of_Number, Number_of_BigInt, binary_normalize.
  destruct g as [|p|p].
  - reflexivity.
  - destruct (Z.eq_dec (Zpos p) (2 ^ 53)) as [Heq|Hne].
    + injection Heq as ->. vm_compute. reflexivity.
    + destruct (binary_round_small false p) as (m & e & -> & He & Hm); [lia|].
      by rewrite (integer_of_scaled false m e (Zpos p)).
  - destruct (Z.eq_dec (Zpos p) (2 ^ 53)) as [Heq|Hne].
    + injection Heq as ->. vm_compute. reflexivity.
    + destruct (binary_round_small true p) as (m & e & -> & He & Hm); [lia|].
      by rewrite (integer_of_scaled true m e (Zpos p)).
Qed.

Lemma iter_pos_nat {A} (f : A -> A) n x :
  SpecFloat.iter_pos f n x = Nat.iter (Pos.to_nat n) f x.
Proof.
  revert x. induction n as [n IH|n IH|]; intros x.
  - rewrite Pos2Nat.inj_xI. cbn [SpecFloat.iter_pos]. rewrite !IH.
    replace (S (2 * Pos.to_nat n))%nat
      with (Pos.to_nat n + (Pos.to_nat n + 1))%nat by lia.
    rewrite !Nat.iter_add. reflexivity.
  - rewrite Pos2Nat.inj_xO. cbn [SpecFloat.iter_pos]. rewrite !IH.
    replace (2 * Pos.to_nat n)%nat
      with (Pos.to_nat n + Pos.to_nat n)%nat by lia.
    rewrite Nat.iter_add. reflexivity.
  - reflexivity.
Qed.

Lemma shr_1_nonneg m r s :
  0 <= m ->
  shr_1 {| shr_m := m; shr_r := r; shr_s := s |}
  = {| shr_m := m / 2; shr_r := Z.odd m; shr_s := r || s |}.
Proof.
  intros Hm. destruct m as [|p|p]; [reflexivity| |lia].
  destruct p as [p|p|]; simpl.
  - f_equal. rewrite Pos2Z.inj_xI. 
    rewrite Z.add_comm, Z.mul_comm, Z.div_add by lia. reflexivity.
  - f_equal. rewrite Pos2Z.inj_xO, Z.mul_comm, Z.div_mul by lia. reflexivity.
  - reflexivity.
Qed.

Lemma shr_iter m k :
  0 <= m ->
  Nat.iter (S k) shr_1 {| shr_m := m; shr_r := false; shr_s := false |}
  = {| shr_m := m / 2 ^ Z.of_nat (S k);
       shr_r := Z.testbit m (Z.of_nat k);
       shr_s := negb (m mod 2 ^ Z.of_nat k =? 0) |}.
Proof.
  intros Hm. induction k as [|k IH].
  - change (Nat.iter 1 shr_1 ?x) with (shr_1 x).
    rewrite shr_1_nonneg by done.
    change (2 ^ Z.of_nat 1) with 2. change (2 ^ Z.of_nat 0) with 1.
    rewrite Z.mod_1_r, Z.bit0_odd. reflexivity.
  - change (Nat.iter (S (S k)) shr_1 ?x) with (shr_1 (Nat.iter (S k) shr_1 x)).
    rewrite IH, shr_1_nonneg by (apply Z.div_pos; lia).
    assert (Hpow : 2 ^ Z.of_nat (S (S k)) = 2 ^ Z.of_nat (S k) * 2).
    { rewrite (Nat2Z.inj_succ (S k)), Z.pow_succ_r by lia. lia. }
    assert (Hpow' : 2 ^ Z.of_nat (S k) = 2 ^ Z.of_nat k * 2).
    { rewrite (Nat2Z.inj_succ k), Z.pow_succ_r by lia. lia. }
    f_equal.
    + rewrite Hpow, Z.div_div by lia. reflexivity.
    + rewrite Z.testbit_odd, Z.shiftr_div_pow2 by lia. reflexivity.
    + rewrite Hpow', Z.rem_mul_r by lia.
      rewrite Z.testbit_odd, Z.shiftr_div_pow2 by lia.
      pose proof (Z.mod_pos_bound m (2 ^ Z.of_nat k) ltac:(lia)) as Hlow.
      rewrite (Zmod_odd (m / 2 ^ Z.of_nat k)).
      destruct (Z.odd (m / 2 ^ Z.of_nat k)); simpl.
      * symmetry. apply negb_true_iff, Z.eqb_neq. lia.
      * rewrite Z.mul_0_r, Z.add_0_r. reflexivity.
Qed.

Lemma round_nearest_even_close m k :
  0 <= m ->
  let mrs := Nat.iter (S k) shr_1
               {| shr_m := m; shr_r := false; shr_s := false |} in
  let m1 := round_nearest_even (shr_m mrs) (loc_of_shr_record mrs) in
  m / 2 ^ Z.of_nat (S k) <= m1 <= m / 2 ^ Z.of_nat (S k) + 1
  /\ Z.abs (m1 * 2 ^ Z.of_nat (S k) - m) <= 2 ^ Z.of_nat k.
Proof.
  intros Hm mrs m1. subst m1 mrs. rewrite shr_iter by done.
  assert (Hpow : 2 ^ Z.of_nat (S k) = 2 ^ Z.of_nat k * 2).
  { rewrite (Nat2Z.inj_succ k), Z.pow_succ_r by lia. lia. }
  assert (HP : 0 < 2 ^ Z.of_nat k) by (apply Z.pow_pos_nonneg; lia).
  pose proof (Z.div_mod m (2 ^ Z.of_nat (S k)) ltac:(lia)) as Hdm.
  pose proof (Z.mod_pos_bound m (2 ^ Z.of_nat k) ltac:(lia)) as Hlow.
  assert (Hrem : m mod 2 ^ Z.of_nat (S k)
                 = m mod 2 ^ Z.of_nat k
                   + 2 ^ Z.of_nat k
                     * (if Z.testbit m (Z.of_nat k) then 1 else 0)).
  { rewrite Hpow, Z.rem_mul_r by lia.
    rewrite Z.testbit_odd, Z.shiftr_div_pow2 by lia.
    by rewrite (Zmod_odd (m / 2 ^ Z.of_nat k)). }
  rewrite Hrem in Hdm. rewrite Hpow in *.
  set (q := m / (2 ^ Z.of_nat k * 2)) in *.
  set (P := 2 ^ Z.of_nat k) in *.
  set (low := m mod P) in *.
  unfold loc_of_shr_record, round_nearest_even. cbn [shr_m shr_r shr_s].
  destruct (Z.testbit m (Z.of_nat k)); cbv iota in Hdm;
    destruct (Z.eqb_spec low 0) as [H0|H0];
    cbn [negb]; try destruct (Z.even q); clearbody q low; clearbody P;
    clear Hrem Hpow; split; nia.
Qed.

Lemma pos_size_bounds p :
  2 ^ (Zpos (Pos.size p) - 1) <= Zpos p < 2 ^ Zpos (Pos.size p).
Proof.
  pose proof (Pos.size_le p) as Hle. pose proof (Pos.size_gt p) as Hgt.
  apply Pos2Z.pos_le_pos in Hle. apply Pos2Z.pos_lt_pos in Hgt.
  rewrite Pos2Z.inj_pow in Hle, Hgt.
  assert (2 ^ Zpos (Pos.size p) = 2 * 2 ^ (Zpos (Pos.size p) - 1)).
  { rewrite <- Z.pow_succ_r by lia. f_equal. lia. }
  lia.
Qed.

Lemma pos_size_unique p d :
  2 ^ (d - 1) <= Zpos p < 2 ^ d -> Zpos (Pos.size p) = d.
Proof.
  intros [Hlo Hhi]. pose proof (pos_size_bounds p) as [Hlo' Hhi'].
  destruct (Z.lt_trichotomy (Zpos (Pos.size p)) d) as [Hlt|[Heq|Hgt]];
    [exfalso|done|exfalso].
  - assert (2 ^ Zpos (Pos.size p) <= 2 ^ (d - 1))
      by (apply Z.pow_le_mono_r; lia). lia.
  - assert (0 <= d).
    { destruct (Z.le_gt_cases 0 d); [done|].
      rewrite (Z.pow_neg_r 2 d) in Hhi by lia. lia. }
    assert (2 ^ d <= 2 ^ (Zpos (Pos.size p) - 1))
      by (apply Z.pow_le_mono_r; lia). lia.
Qed.

Lemma shr_fexp_shifts m e k :
  0 <= m ->
  fexp prec64 emax64 (Zdigits2 m + e) - e = Z.of_nat (S k) ->
  shr_fexp prec64 emax64 m e loc_Exact
  = (Nat.iter (S k) shr_1 {| shr_m := m; shr_r := false; shr_s := false |},
     e + Z.of_nat (S k)).
Proof.
  intros Hm Hk. unfold shr_fexp. rewrite Hk. unfold shr.
  rewrite Nat2Z.inj_succ. unfold Z.succ.
  destruct (Z.of_nat k + 1) as [|j|j] eqn:Hj; [lia| |lia].
  rewrite iter_pos_nat. cbn [shr_record_of_loc].
  replace (Pos.to_nat j) with (S k) by lia. reflexivity.
Qed.

Lemma binary_round_large s p n :
  n = Zpos (Pos.size p) - 53 -> 0 < n <= 970 ->
  exists m e,
    binary_round prec64 emax64 s p 0 = S754_finite s m e
    /\ 0 < e
    /\ Z.abs (Zpos m * 2 ^ e - Zpos p) <= 2 ^ (n - 1).
Proof.
  intros Hn Hr. pose proof (pos_size_bounds p) as [Hlo Hhi].
  unfold binary_round, shl_align. rewrite digits2_pos_size.
  assert (fexp prec64 emax64 (Z.pos (Pos.size p) + 0) = n) as ->.
  { unfold fexp, emin, prec64, emax64. lia. }
  rewrite Z.sub_0_r.
  destruct n as [|n'|n'] eqn:Hn'; [lia| |lia]. rewrite <- Hn' in *.
  destruct (Z_of_nat_complete (n - 1) ltac:(lia)) as [k Hk].
  assert (HSk : Z.of_nat (S k) = n) by lia.
  unfold binary_round_aux.
  rewrite (shr_fexp_shifts (Zpos p) 0 k); [|lia|].
  2:{ cbn [Zdigits2]. rewrite digits2_pos_size.
      unfold fexp, emin, prec64, emax64. lia. }
  destruct (round_nearest_even_close (Zpos p) k ltac:(lia)) as [Hq Herr].
  set (mrs := Nat.iter (S k) shr_1 _) in *.
  set (m1 := round_nearest_even (shr_m mrs) (loc_of_shr_record mrs)) in *.
  cbv zeta in Hq, Herr. rewrite HSk in *. rewrite <- Hk in Herr.
  rewrite Z.add_0_l.
  assert (Hpn : 0 < 2 ^ n) by (apply Z.pow_pos_nonneg; lia).
  assert (Hsplit : 2 ^ (Zpos (Pos.size p) - 1) = 2 ^ 52 * 2 ^ n).
  { rewrite <- Z.pow_add_r by lia. f_equal. lia. }
  assert (Hsplit' : 2 ^ Zpos (Pos.size p) = 2 ^ 53 * 2 ^ n).
  { rewrite <- Z.pow_add_r by lia. f_equal. lia. }
  assert (Hq52 : 2 ^ 52 <= Zpos p / 2 ^ n).
  { apply Z.div_le_lower_bound; lia. }
  assert (Hq53 : Zpos p / 2 ^ n < 2 ^ 53).
  { apply Z.div_lt_upper_bound; lia. }
  destruct (Z.eq_dec m1 (2 ^ 53)) as [Heq|Hne].
  - rewrite Heq in *.
    rewrite (shr_fexp_shifts (2 ^ 53) n 0); [|lia|].
    2:{ change (Zdigits2 (2 ^ 53)) with 54.
        unfold fexp, emin, prec64, emax64. lia. }
    change (Nat.iter 1 shr_1 ?x) with (shr_1 x).
    change (shr_m (shr_1 {| shr_m := 2 ^ 53; shr_r := false; shr_s := false |}))
      with (Zpos (2 ^ 52)).
    assert ((n + Z.of_nat 1 <=? emax64 - prec64) = true) as ->.
    { apply Z.leb_le. unfold emax64, prec64. lia. }
    exists (2 ^ 52)%positive, (n + Z.of_nat 1). split; [done|]. split; [lia|].
    replace (Zpos (2 ^ 52) * 2 ^ (n + Z.of_nat 1)) with (2 ^ 53 * 2 ^ n); [done|].
    rewrite Z.pow_add_r by lia. change (2 ^ Z.of_nat 1) with 2.
    change (Zpos (2 ^ 52)) with (2 ^ 52). change (2 ^ 53) with (2 ^ 52 * 2). lia.
  - destruct m1 as [|m1p|m1p] eqn:Hm1; [lia| |lia].
    assert (Hsz : Zpos (Pos.size m1p) = 53) by (apply pos_size_unique; lia).
    rewrite shr_fexp_canonical.
    2:{ rewrite digits2_pos_size, Hsz. unfold fexp, emin, prec64, emax64. lia. }
    cbn [shr_m].
    assert ((n <=? emax64 - prec64) = true) as ->.
    { apply Z.leb_le. unfold emax64, prec64. lia. }
    exists m1p, n. split; [done|]. split; [lia|done].
Qed.

Lemma integer_of_shifted s m e :
  0 < e ->
  integer_of_float (S754_finite s m e)
  = Some (if s then - (Zpos m * 2 ^ e) else Zpos m * 2 ^ e).
Proof.
  intros He. unfold integer_of_float.
  destruct e as [|k|k]; [lia| |lia].
  rewrite iter_xO_shiftl, Z.shiftl_mul_pow2 by lia. reflexivity.
Qed.

Lemma Number_close (g : Z) :
  Z.abs g < 2 ^ 64 ->
  exists z,
    integer_of_float (Number_of_BigInt g) = Some z
    /\ Z.abs (z - g) <= 2 ^ 10.
Proof.
  intros Hg.
  destruct (Z_le_gt_dec (Z.abs g) (2 ^ 53)) as [Hsmall|Hbig].
  - exists g. split; [|lia].
    pose proof (Number_exact g ltac:(lia)) as Hx.
    unfold BigInt_of_Number in Hx.
    destruct (integer_of_float (Number_of_BigInt g)); congruence.
  - unfold Number_of_BigInt, binary_normalize.
    destruct g as [|p|p]; [simpl in Hbig; lia| |].
    + pose proof (pos_size_bounds p) as [Hlo Hhi].
      assert (53 < Zpos (Pos.size p)).
      { destruct (Z.le_gt_cases (Zpos (Pos.size p)) 53); [|lia].
        assert (2 ^ Zpos (Pos.size p) <= 2 ^ 53)
          by (apply Z.pow_le_mono_r; lia). lia. }
      assert (Zpos (Pos.size p) <= 64).
      { destruct (Z.le_gt_cases (Zpos (Pos.size p)) 64); [done|].
        assert (2 ^ 64 <= 2 ^ (Zpos (Pos.size p) - 1))
          by (apply Z.pow_le_mono_r; lia). lia. }
      destruct (binary_round_large false p (Zpos (Pos.size p) - 53))
        as (m & e & -> & He & Herr); [done|lia|].
      rewrite integer_of_shifted by done. eexists. split; [done|].
      assert (2 ^ (Zpos (Pos.size p) - 53 - 1) <= 2 ^ 10)
        by (apply Z.pow_le_mono_r; lia). lia.
    + pose proof (pos_size_bounds p) as [Hlo Hhi].
      assert (53 < Zpos (Pos.size p)).
      { destruct (Z.le_gt_cases (Zpos (Pos.size p)) 53); [|lia].
        assert (2 ^ Zpos (Pos.size p) <= 2 ^ 53)
          by (apply Z.pow_le_mono_r; lia). lia. }
      assert (Zpos (Pos.size p) <= 64).
      { destruct (Z.le_gt_cases (Zpos (Pos.size p)) 64); [done|].
        assert (2 ^ 64 <= 2 ^ (Zpos (Pos.size p) - 1))
          by (apply Z.pow_le_mono_r; lia). lia. }
      destruct (binary_round_large true p (Zpos (Pos.size p) - 53))
        as (m & e & -> & He & Herr); [done|lia|].
      rewrite integer_of_shifted by done. eexists. split; [done|].
      assert (2 ^ (Zpos (Pos.size p) - 53 - 1) <= 2 ^ 10)
        by (apply Z.pow_le_mono_r; lia). lia.
Qed.

End NumberFacts.

(* ================================================================== *)
(** * The engine of the specification *)
(* ================================================================== *)

Module EngineFacts.
Import Engine.

#[local] Open Scope list_scope.
#[local] Open Scope Z_scope.

Lemma on_board_all_squares sq : on_board sq = true -> sq ∈ all_squares.
Proof.
  destruct sq as [r c]. unfold on_board. simpl. intros H.
  apply andb_prop in H as [H Hc2]. apply andb_prop in H as [H Hc1].
  apply andb_prop in H as [Hr1 Hr2].
  apply Z.leb_le in Hr1, Hc1. apply Z.ltb_lt in Hr2, Hc2.
  assert (Hr : r ∈ [0; 1; 2; 3; 4; 5; 6; 7]).
  { rewrite !elem_of_cons. lia. }
  assert (Hc : c ∈ [0; 1; 2; 3; 4; 5; 6; 7]).
  { rewrite !elem_of_cons. lia. }
  unfold all_squares.
  apply list_elem_of_bind. exists r. split; [|done].
  apply list_elem_of_bind. exists c. split; [|done].
  apply list_elem_of_singleton. reflexivity.
Qed.

Lemma piece_at_on_board b sq q : piece_at b sq = Some q -> on_board sq = true.
Proof. unfold piece_at. by destruct (on_board sq). Qed.

Lemma attacked_false b target c :
  attacked b target c = false ->
  forall sq q, piece_at b sq = Some q -> color q = c -> target ∉ attacks b sq q.
Proof.
  unfold attacked. intros H sq q Hq Hc Hin.
  assert (Hex : existsb
     (fun sq => match piece_at b sq with
                | Some q => if bool_decide (color q = c)
                            then bool_decide (target ∈ attacks b sq q) else false
                | None => false end) all_squares = true).
  { apply existsb_exists. exists sq. split.
    - apply list_elem_of_In, on_board_all_squares. eauto using piece_at_on_board.
    - rewrite Hq. rewrite bool_decide_eq_true_2 by done.
      by apply bool_decide_eq_true_2. }
  congruence.
Qed.

Lemma in_check_false b c :
  in_check b c = false ->
  forall k sq q,
    piece_at b k = Some {| kind := King; color := c |} ->
    piece_at b sq = Some q -> color q = opponent c ->
    k ∉ attacks b sq q.
Proof.
  unfold in_check. intros H k sq q Hk Hq Hc.
  apply (attacked_false b k (opponent c)); [|done|done].
  destruct (attacked b k (opponent c)) eqn:Ha; [|done].
  exfalso.
  assert (Hex : existsb
     (fun sq => if is_piece King c (piece_at b sq)
                then attacked b sq (opponent c) else false) all_squares = true).
  { apply existsb_exists. exists k. split.
    - apply list_elem_of_In, on_board_all_squares. eauto using piece_at_on_board.
    - unfold is_piece. rewrite bool_decide_eq_true_2 by done. done. }
  congruence.
Qed.

Lemma pawn_move_from c a b m : m ∈ pawn_move c a b -> from m = a.
Proof.
  unfold pawn_move. destruct (bool_decide _).
  - intros (k & -> & _)%list_elem_of_fmap. reflexivity.
  - intros ->%list_elem_of_singleton. reflexivity.
Qed.

Lemma piece_moves_from p sq m :
  m ∈ piece_moves p sq ->
  from m = sq
  /\ exists q, piece_at (board p) sq = Some q /\ color q = side_to_move p.
Proof.
  unfold piece_moves. destruct (piece_at (board p) sq) as [q|] eqn:Hq;
    [|by intros ?%elem_of_nil].
  destruct (bool_decide (color q = side_to_move p)) eqn:Hc;
    [|by intros ?%elem_of_nil].
  apply bool_decide_eq_true in Hc. intros Hm. split; [|eauto].
  destruct (kind q);
    try (apply list_elem_of_fmap in Hm as (s & -> & _); reflexivity).
  unfold pawn_moves in Hm.
  apply list_elem_of_bind in Hm as (s & Hm & _). by eapply pawn_move_from.
Qed.

Lemma castle_from p c right rook_col between path dest m :
  m ∈ castle p c right rook_col between path dest ->
  piece_at (board p) (from m) = Some {| kind := King; color := c |}.
Proof.
  unfold castle.
  destruct (right && is_piece King c (piece_at (board p) (home_rank c, 4))
            && is_piece Rook c (piece_at (board p) (home_rank c, rook_col))
            && forallb _ between) eqn:Hcond; [|by intros ?%elem_of_nil].
  destruct (forallb _ (4 :: path)); [|by intros ?%elem_of_nil].
  intros ->%list_elem_of_singleton. simpl.
  apply andb_prop in Hcond as [Hcond _]. apply andb_prop in Hcond as [Hcond _].
  apply andb_prop in Hcond as [_ Hking].
  unfold is_piece in Hking. by apply bool_decide_eq_true in Hking.
Qed.

Lemma pseudo_legal_moves_from p m :
  m ∈ pseudo_legal_moves p ->
  exists q, piece_at (board p) (from m) = Some q /\ color q = side_to_move p.
Proof.
  unfold pseudo_legal_moves. intros [Hm|Hm]%elem_of_app.
  - apply list_elem_of_bind in Hm as (sq & Hm & _).
    apply piece_moves_from in Hm as (-> & ?). done.
  - unfold castling_moves in Hm.
    destruct (side_to_move p); apply elem_of_app in Hm as [Hm|Hm];
      apply castle_from in Hm; eauto.
Qed.

Lemma apply_gives_the_turn p m q :
  piece_at (board p) (from m) = Some q ->
  side_to_move (apply p m) = opponent (side_to_move p).
Proof. intros Hq. unfold apply. rewrite Hq. reflexivity. Qed.

Lemma opponent_opponent c : opponent (opponent c) = c.
Proof. by destruct c. Qed.

(** In a reachable position the side that has just moved is not in check:
    the side to move can never capture a king. *)
Lemma reachable_king_is_never_en_prise p :
  reachable p -> in_check (board p) (opponent (side_to_move p)) = false.
Proof.
  induction 1 as [|p m _ _ Hm].
  - vm_compute. reflexivity.
  - apply list_elem_of_filter in Hm as [Hsafe Hm].
    apply pseudo_legal_moves_from in Hm as (q & Hq & _).
    rewrite (apply_gives_the_turn p m q Hq), opponent_opponent.
    unfold safe in Hsafe. by apply negb_true_iff in Hsafe.
Qed.

(** The destinations offered for a square are those of the legal moves that
    start on it. *)
Lemma legal_moves_for_square_spec p sq d :
  d ∈ legal_moves_for_square p sq
  <-> exists m, m ∈ legal_moves p /\ from m = sq /\ to m = d.
Proof.
  unfold legal_moves_for_square.
  rewrite elem_of_remove_dups, list_elem_of_fmap. split.
  - intros (m & -> & Hm). apply list_elem_of_filter in Hm as [? ?]. eauto.
  - intros (m & Hm & Hf & <-). exists m. split; [done|].
    by apply list_elem_of_filter.
Qed.

(** C5.  For every position reachable via legal play from the standard
    starting position, no move of [legal_moves] leaves the mover's own king
    in check: after the move, no king of the mover stands on a square that
    a piece of the opponent attacks. *)
Theorem legal_moves_never_leave_king_in_check p m :
  reachable p -> m ∈ legal_moves p ->
  in_check (board (apply p m)) (side_to_move p) = false
  /\ forall k sq q,
       piece_at (board (apply p m)) k
         = Some {| kind := King; color := side_to_move p |} ->
       piece_at (board (apply p m)) sq = Some q ->
       color q = opponent (side_to_move p) ->
       k ∉ attacks (board (apply p m)) sq q.
Proof.
  intros _ Hm. unfold legal_moves in Hm.
  apply list_elem_of_filter in Hm as [Hsafe _].
  unfold safe in Hsafe. apply negb_true_iff in Hsafe.
  split; [done|]. by apply in_check_false.
Qed.

Lemma legal_moves_never_leave_king_in_check_witness :
  let p := apply (apply start (plain (1, 4) (3, 4))) (plain (6, 4) (4, 4)) in
  let m := plain (0, 6) (2, 5) in
  reachable p /\ m ∈ legal_moves p
  /\ in_check (board (apply p m)) (side_to_move p) = false.
Proof.
  intros p m.
  assert (Hp : reachable p).
  { apply reachable_apply; [apply reachable_apply; [apply reachable_start|]|];
      apply (bool_decide_unpack _); vm_compute; exact I. }
  assert (Hm : m ∈ legal_moves p)
    by (apply (bool_decide_unpack _); vm_compute; exact I).
  split; [exact Hp|]. split; [exact Hm|].
  exact (proj1 (legal_moves_never_leave_king_in_check p m Hp Hm)).
Defined.

(** The model on the positions the specification names. *)
Example twenty_first_moves : length (legal_moves start) = 20%nat.
Proof. vm_compute. reflexivity. Qed.

Example knight_on_f3 :
  let p := play start [plain (1, 4) (3, 4); plain (6, 4) (4, 4);
                       plain (0, 6) (2, 5); plain (6, 0) (5, 0)] in
  legal_moves_for_square p (2, 5) = [(3, 7); (4, 6); (4, 4); (3, 3); (0, 6)].
Proof. vm_compute. reflexivity. Qed.

Example fools_mate :
  let p := play start [plain (1, 5) (2, 5); plain (6, 4) (4, 4);
                       plain (1, 6) (3, 6); plain (7, 3) (3, 7)] in
  legal_moves p = [] /\ is_terminal p = Checkmate.
Proof. vm_compute. split; reflexivity. Qed.

Section EvaluationFacts.
Variable registry : list (string * (Position -> Z)).
Variable cfg : EngineConfig.
Variable p : Position.

Lemma fold_score_total l acc :
  total (fold_left (score_module cfg p) l acc)
  = total acc
    + foldr Z.add 0 ((fun m => m.2 p) <$> filter (fun m => enabled cfg m.1 = true) l).
Proof.
  revert acc. induction l as [|[n f] l IH]; intros acc; simpl.
  - lia.
  - rewrite IH. unfold score_module. simpl.
    rewrite filter_cons. simpl.
    destruct (decide (enabled cfg n = true)) as [He|He].
    + rewrite He. simpl. symmetry. apply Z.add_assoc.
    + apply not_true_is_false in He. rewrite He. lia.
Qed.

Lemma fold_score_lookup l acc k :
  NoDup l.*1 ->
  contributions (fold_left (score_module cfg p) l acc) !! k
  = match (list_to_map l : gmap string (Position -> Z)) !! k with
    | Some f => if enabled cfg k then Some (f p) else contributions acc !! k
    | None => contributions acc !! k
    end.
Proof.
  revert acc. induction l as [|[n f] l IH]; intros acc Hnd.
  - simpl. by rewrite lookup_empty.
  - rewrite fmap_cons in Hnd. apply NoDup_cons in Hnd as [Hn Hnd].
    simpl. rewrite IH by done.
    destruct (decide (n = k)) as [->|Hne].
    + rewrite lookup_insert_eq.
      rewrite (not_elem_of_list_to_map_1 l k) by done.
      unfold score_module. simpl.
      destruct (enabled cfg k); simpl; [by rewrite lookup_insert_eq|done].
    + rewrite lookup_insert_ne by done.
      assert (contributions (score_module cfg p acc (n, f)) !! k
              = contributions acc !! k) as ->; [|done].
      unfold score_module. simpl.
      destruct (enabled cfg n); simpl; [by rewrite lookup_insert_ne|done].
Qed.

Lemma sum_of_entries_insert (m : gmap string Z) k v :
  m !! k = None -> sum_of_entries (<[k := v]> m) = v + sum_of_entries m.
Proof.
  intros H. unfold sum_of_entries.
  rewrite map_fold_insert_L; [done| |done]. intros. lia.
Qed.

Lemma sum_of_entries_delete (m : gmap string Z) k v :
  m !! k = Some v -> sum_of_entries (delete k m) = sum_of_entries m - v.
Proof.
  intros H. unfold sum_of_entries.
  rewrite (map_fold_delete_L _ _ k v m); [lia| |done]. intros. lia.
Qed.

Lemma fold_score_sum l acc :
  NoDup l.*1 ->
  (forall n, n ∈ l.*1 -> contributions acc !! n = None) ->
  total acc = sum_of_entries (contributions acc) ->
  let e := fold_left (score_module cfg p) l acc in
  total e = sum_of_entries (contributions e).
Proof.
  revert acc. induction l as [|[n f] l IH]; intros acc Hnd Hfresh Hacc; simpl.
  - done.
  - rewrite fmap_cons in Hnd, Hfresh. apply NoDup_cons in Hnd as [Hn Hnd].
    apply IH; [done| |].
    + intros k Hk. unfold score_module. simpl.
      destruct (enabled cfg n); simpl.
      * rewrite lookup_insert_ne; [|by intros ->].
        apply Hfresh. by right.
      * apply Hfresh. by right.
    + unfold score_module. simpl.
      destruct (enabled cfg n); simpl; [|done].
      rewrite sum_of_entries_insert; [lia|]. apply Hfresh. by left.
Qed.

End EvaluationFacts.

Section EvaluationClaims.
Variable registry : list (string * (Position -> Z)).
Hypothesis registry_names : NoDup registry.*1.

Lemma evaluate_lookup cfg p k :
  contributions (evaluate registry cfg p) !! k
  = if enabled cfg k
    then (fun f => f p) <$> (list_to_map registry : gmap string (Position -> Z)) !! k
    else None.
Proof.
  unfold evaluate. rewrite fold_score_lookup by done. simpl.
  rewrite lookup_empty.
  destruct (list_to_map registry !! k), (enabled cfg k); done.
Qed.

Lemma enabled_with_module cfg name on k :
  enabled (with_module cfg name on) k
  = if decide (name = k) then on else enabled cfg k.
Proof.
  unfold enabled, with_module. simpl. rewrite lookup_insert.
  destruct (decide (name = k)); done.
Qed.

(** C6.  For every position and every configuration, the total of
    [evaluate] is the sum of the contributions of the enabled modules, and
    also the sum of the entries of the breakdown; a disabled module has no
    entry; an enabled module's entry is its contribution, and disabling it
    removes exactly that entry and lowers the total by exactly that
    contribution. *)
Theorem evaluation_total_is_sum_of_enabled cfg p :
  let e := evaluate registry cfg p in
  total e = foldr Z.add 0 (enabled_contributions registry cfg p)
  /\ total e = sum_of_entries (contributions e)
  /\ (forall name, enabled cfg name = false -> contributions e !! name = None)
  /\ (forall name f,
        (name, f) ∈ registry -> enabled cfg name = true ->
        contributions e !! name = Some (f p)
        /\ let e' := evaluate registry (with_module cfg name false) p in
           contributions e' = delete name (contributions e)
           /\ total e' = total e - f p).
Proof.
  intros e.
  assert (Hsum : forall c,
             total (evaluate registry c p)
             = sum_of_entries (contributions (evaluate registry c p))).
  { intros c. apply fold_score_sum; [done| |done].
    intros. apply lookup_empty. }
  split; [|split; [|split]].
  - unfold e, evaluate, enabled_contributions.
    rewrite fold_score_total. simpl. lia.
  - apply Hsum.
  - intros name Hoff. unfold e. rewrite evaluate_lookup. by rewrite Hoff.
  - intros name f Hin Hon.
    assert (Hf : (list_to_map registry : gmap string (Position -> Z)) !! name = Some f)
      by (by apply elem_of_list_to_map_1).
    assert (He : contributions e !! name = Some (f p)).
    { unfold e. rewrite evaluate_lookup, Hon, Hf. done. }
    split; [done|]. intros e'.
    assert (Hdel : contributions e' = delete name (contributions e)).
    { apply map_eq. intros k. unfold e', e.
      rewrite lookup_delete, !evaluate_lookup, enabled_with_module.
      destruct (decide (name = k)); done. }
    split; [done|].
    unfold e'. rewrite Hsum. fold e'. rewrite Hdel.
    rewrite (sum_of_entries_delete _ _ (f p)) by done.
    unfold e. rewrite <- Hsum. done.
Qed.
End EvaluationClaims.

Section SearchClaims.
Variable registry : list (string * (Position -> Z)).
Variable depth_ceiling : nat.

Lemma search_fixed_depth cfg d p :
  depth_reached (search_fixed registry cfg d p) = d.
Proof.
  unfold search_fixed. destruct (legal_moves p); [done|].
  by destruct (fold_left _ _ _) as [[? ?] ?].
Qed.

Lemma deepen_stops cfg room d p :
  let r := deepen registry cfg room d p in
  min_evals cfg <= nodes r \/ depth_reached r = (d + room)%nat.
Proof.
  revert d. induction room as [|room IH]; intros d; simpl.
  - right. rewrite search_fixed_depth. lia.
  - destruct (Z.ltb_spec (nodes (search_fixed registry cfg d p)) (min_evals cfg)).
    + destruct (IH (S d)) as [? | ->]; [by left|right; lia].
    + by left.
Qed.

(** C7.  With auto-deepen enabled and threshold [min_evals], the count
    that [get_last_evals] returns after the search of [make_ai_move] is
    the node count of that search, and it is at least the threshold
    unless the search stopped at the depth ceiling; a hint, which overrides
    auto-deepen for its own call, leaves the count as it is. *)
Theorem auto_deepen_meets_threshold (g : GameController) :
  auto_deepen (config g) = true ->
  let '(g', r) := make_ai_move registry depth_ceiling g in
  get_last_evals g' = nodes r
  /\ (min_evals (config g) <= get_last_evals g'
      \/ (depth_ceiling <= depth_reached r)%nat)
  /\ (forall d, get_last_evals (get_hint registry g' d).1 = get_last_evals g').
Proof.
  intros Hauto. unfold make_ai_move.
  set (r := search registry depth_ceiling (config g) (position g)).
  assert (Hr : min_evals (config g) <= nodes r
               \/ (depth_ceiling <= depth_reached r)%nat).
  { unfold r, search. rewrite Hauto.
    destruct (deepen_stops (config g) (depth_ceiling - depth (config g))
                (depth (config g)) (position g)) as [? | ->]; [by left|right; lia]. }
  destruct (best_move r); simpl; done.
Qed.
End SearchClaims.

Lemma evaluation_total_is_sum_of_enabled_witness :
  let cfg := config (new sample_registry 1) in
  NoDup sample_registry.*1
  /\ total (evaluate sample_registry cfg start)
     = foldr Z.add 0 (enabled_contributions sample_registry cfg start)
  /\ contributions (evaluate sample_registry cfg start) !! "mobility"
     = Some (mobility start)
  /\ total (evaluate sample_registry (with_module cfg "mobility" false) start)
     = total (evaluate sample_registry cfg start) - mobility start.
Proof.
  intros cfg.
  assert (Hnd : NoDup sample_registry.*1)
    by (apply (bool_decide_unpack _); vm_compute; exact I).
  split; [exact Hnd|].
  destruct (evaluation_total_is_sum_of_enabled sample_registry Hnd cfg start)
    as (Hsum & _ & _ & Hon).
  split; [exact Hsum|].
  destruct (Hon "mobility" mobility) as (Hentry & _ & Hless).
  - right. left.
  - vm_compute. reflexivity.
  - split; [exact Hentry|exact Hless].
Defined.

Lemma auto_deepen_meets_threshold_witness :
  let g := with_config (new sample_registry 1)
             {| depth := 1; modules := modules (config (new sample_registry 1));
                auto_deepen := true; min_evals := 50 |} in
  auto_deepen (config g) = true
  /\ let '(g', r) := make_ai_move sample_registry 2 g in
     get_last_evals g' = nodes r
     /\ (min_evals (config g) <= get_last_evals g'
         \/ (2 <= depth_reached r)%nat).
Proof.
  intros g. split; [reflexivity|].
  pose proof (auto_deepen_meets_threshold sample_registry 2 g eq_refl) as H.
  destruct (make_ai_move sample_registry 2 g) as [g' r].
  destruct H as (Hcount & Hbound & _). split; [exact Hcount|exact Hbound].
Defined.

Example deepening_from_the_start :
  let g := with_config (new sample_registry 1)
             {| depth := 1; modules := modules (config (new sample_registry 1));
                auto_deepen := true; min_evals := 50 |} in
  let r := (make_ai_move sample_registry 2 g).2 in
  (nodes r, depth_reached r) = (99, 2%nat).
Proof. vm_compute. reflexivity. Qed.

End EngineFacts.

(* ================================================================== *)
(** * The worker *)
(* ================================================================== *)

Section WorkerFacts.
Context {G : Game}.
Variable StringToBigInt : JsValue -> completion Z.
Variable NumberToString : spec_float -> string.

Ltac pick_method H :=
  unfold engine_backed, known_methods in H; simpl tail in H;
  repeat (apply elem_of_cons in H as [H|H]; [subst|]);
  [.. | by apply elem_of_nil in H].

Ltac run_job :=
  cbv [handle dispatch engine_step spread_into converted called answered
       destructure
       mbind mret Job_bind Job_ret deref read_game write_game new_Game
       invoke spread index lift throw postMessage].

Ltac select_case H :=
  rewrite ?H; cbv [selects String.eqb Ascii.eqb Bool.eqb andb].

Lemma known_new_or_backed (m : string) :
  m ∈ known_methods <-> m = "new_game" \/ m ∈ engine_backed.
Proof. unfold engine_backed, known_methods. simpl tail. apply elem_of_cons. Qed.

Lemma pair_of_fst {A B} (x : A * B) (a : A) : x.1 = a -> x = (a, x.2).
Proof. destruct x. simpl. by intros ->. Qed.

(** Only an object has a method that is a string. *)
Lemma method_of_object msg m :
  method msg = JsString m -> exists props, msg = JsObject props.
Proof. destruct msg; try discriminate; eauto. Qed.

Lemma handle_live msg m w r g :
  method msg = JsString m -> m ∈ engine_backed ->
  game w = Some r -> heap w !! r = Some g ->
  handle StringToBigInt NumberToString msg w
  = match engine_step StringToBigInt msg g with
    | inl e => (Throw e, w)
    | inr (Normal v, g') =>
        (Normal tt, answered (Reply (id msg) v) (called r m g' w))
    | inr (Throw e, g') => (Throw e, called r m g' w)
    end.
Proof.
  intros Hn Hm Hr Hg. destruct (method_of_object msg m Hn) as [props ->].
  pick_method Hm; run_job; select_case Hn; rewrite ?Hr, ?Hg.
  all: repeat match goal with
       | |- context [match ?x with _ => _ end] =>
           lazymatch x with
           | context [match _ with _ => _ end] => fail
           | _ => destruct x eqn:?
           end
       end; simplify_eq; simpl in *; rewrite ?Hr;
       repeat match goal with
       | H1 : ?x = _, H2 : ?x = _ |- _ => rewrite H1 in H2
       | H : ?x = (_, _) |- context [?x] => rewrite H
       | H : ?x = (_, _), H2 : context [?x] |- _ => rewrite H in H2
       end; simpl in *; simplify_eq; try reflexivity.
Qed.

Lemma handle_null msg m w :
  method msg = JsString m -> m ∈ engine_backed -> game w = None ->
  handle StringToBigInt NumberToString msg w
  = (Throw (TypeError ("Cannot read properties of null (reading '"
                       ++ m ++ "')")), w).
Proof.
  intros Hn Hm Hr. destruct (method_of_object msg m Hn) as [props ->].
  pick_method Hm; run_job; select_case Hn; rewrite Hr; reflexivity.
Qed.

Lemma handle_dangling msg m w r :
  method msg = JsString m -> m ∈ engine_backed ->
  game w = Some r -> heap w !! r = None ->
  exists e, handle StringToBigInt NumberToString msg w = (Throw e, w).
Proof.
  intros Hn Hm Hr Hg. destruct (method_of_object msg m Hn) as [props ->].
  pick_method Hm; run_job; select_case Hn; rewrite ?Hr, ?Hg.
  all: repeat match goal with
       | |- context [match ?x with _ => _ end] =>
           lazymatch x with
           | context [match _ with _ => _ end] => fail
           | _ => destruct x eqn:?
           end
       end; simplify_eq; eauto.
Qed.

Lemma handle_new_game msg w :
  method msg = JsString "new_game" ->
  handle StringToBigInt NumberToString msg w
  = match constructor with
    | Normal g =>
        (Normal tt,
         {| game := Some (fresh (dom (heap w)));
            heap := <[fresh (dom (heap w)) := g]> (heap w);
            posted := Reply (id msg) JsNull :: posted w;
            calls := CallNew (fresh (dom (heap w))) :: calls w |})
    | Throw e => (Throw e, w)
    end.
Proof.
  intros Hn. destruct (method_of_object msg _ Hn) as [props ->].
  run_job. select_case Hn. destruct constructor; reflexivity.
Qed.

Lemma selects_unknown (v : JsValue) :
  (forall m, v = JsString m -> m ∉ known_methods) ->
  Forall (fun x => selects v x = false) known_methods.
Proof.
  intros Hm. apply Forall_forall. intros x Hx.
  destruct v; try reflexivity. simpl.
  apply String.eqb_neq. intros ->. by apply (Hm x).
Qed.

(** The [default] case: the message is destructured, the string of the
    method is built, and only then the error is posted. *)
Lemma handle_unknown msg w :
  (forall m, method msg = JsString m -> m ∉ known_methods) ->
  handle StringToBigInt NumberToString msg w
  = match (destructure msg w).1 with
    | Normal _ =>
        match ToString NumberToString (method msg) with
        | Normal name =>
            (Normal tt,
             answered (Failure (id msg) ("unknown method: " ++ name)) w)
        | Throw e => (Throw e, w)
        end
    | Throw e => (Throw e, w)
    end.
Proof.
  intros Hm. apply selects_unknown in Hm. unfold known_methods in Hm.
  unfold handle, dispatch.
  repeat (apply Forall_cons in Hm as [-> Hm]).
  destruct msg; try reflexivity;
    cbv [destructure mbind mret Job_bind Job_ret lift postMessage throw fst];
    by destruct (ToString _ _).
Qed.

(** In the [default] case [handle] posts its error, or throws and leaves
    the worker as it is. *)
Lemma handle_unknown_cases msg w :
  (forall m, method msg = JsString m -> m ∉ known_methods) ->
  (exists name,
      msg <> JsUndefined /\ msg <> JsNull
      /\ ToString NumberToString (method msg) = Normal name
      /\ handle StringToBigInt NumberToString msg w
         = (Normal tt,
            answered (Failure (id msg) ("unknown method: " ++ name)) w))
  \/ (exists e,
        (msg = JsUndefined \/ msg = JsNull
         \/ ToString NumberToString (method msg) = Throw e)
        /\ handle StringToBigInt NumberToString msg w = (Throw e, w)).
Proof.
  intros Hm. rewrite handle_unknown by done.
  destruct msg; cbv [destructure mret Job_ret throw fst];
    try (right; eexists; split; [eauto|reflexivity]);
    (destruct (ToString _ _) as [name|e] eqn:Hs;
     [left; exists name; by repeat split
     |right; exists e; split; [eauto|reflexivity]]).
Qed.

Lemma situation msg w : Situation msg w.
Proof.
  destruct (method msg) as [| | | | |m| |] eqn:Hn;
    try (apply Unknown; intros ? ?; congruence).
  destruct (decide (m ∈ known_methods)) as [Hk|Hk];
    [|apply Unknown; intros ? ?; congruence].
  apply known_new_or_backed in Hk as [->|Hb]; [by apply Fresh|].
  destruct (game w) as [r|] eqn:Hr; [|by eapply Null].
  destruct (heap w !! r) as [g|] eqn:Hg;
    [by eapply Live|by eapply Dangling].
Qed.

(** Whenever [handle] throws, nothing has been posted. *)
Lemma handle_throw_posts_nothing msg w e w' :
  handle StringToBigInt NumberToString msg w = (Throw e, w') ->
  posted w' = posted w.
Proof.
  intros H.
  destruct (situation msg w)
    as [Hm|Hm|m Hn Hm Hr|m r Hn Hm Hr Hg|m r g Hn Hm Hr Hg].
  - destruct (handle_unknown_cases msg w Hm)
      as [(name & _ & _ & _ & He)|(e' & _ & He)];
      rewrite He in H; by simplify_eq.
  - rewrite handle_new_game in H by done.
    destruct constructor; by simplify_eq.
  - rewrite (handle_null msg m) in H by done. by simplify_eq.
  - destruct (handle_dangling msg m w r) as [e' He]; try done.
    rewrite He in H. by simplify_eq.
  - rewrite (handle_live msg m w r g) in H by done.
    destruct (engine_step StringToBigInt msg g) as [?|[[?|?] ?]]; by simplify_eq.
Qed.

Lemma engine_step_returned msg m g v g' :
  method msg = JsString m -> m ∈ engine_backed ->
  engine_step StringToBigInt msg g = inr (Normal v, g') ->
  if bool_decide (m ∈ "new_game" :: setter_methods)
  then v = JsNull
  else exists u, returned msg g = Some (Normal u) /\ v = as_posted msg u.
Proof.
  intros Hn Hm.
  pick_method Hm;
    cbv [engine_step returned as_posted spread_into converted];
    select_case Hn;
    match goal with
    | |- context [bool_decide ?P] =>
        let b := eval vm_compute in (bool_decide P) in
        change (bool_decide P) with b
    end; cbv iota.
  all: repeat match goal with
       | |- context [match ?x with _ => _ end] =>
           lazymatch x with
           | context [match _ with _ => _ end] => fail
           | _ => destruct x eqn:?
           end
       end; intros; simplify_eq; simpl in *;
       repeat match goal with
       | H : ?x = (_, _) |- context [?x] => rewrite H
       | H : ?x = (_, _), H2 : context [?x] |- _ => rewrite H in H2
       end; simpl in *; simplify_eq; eauto.
Qed.

(** C2, amended.  A request with a known method whose handling runs to
    completion gets exactly one response; it carries the request's id, and
    its result is null for [new_game] and the setters, [Number(v)] for
    [get_last_evals] and the returned value [v] itself for the other
    methods. *)
Theorem handle_posts_one_reply msg m w w' :
  method msg = JsString m -> m ∈ known_methods ->
  handle StringToBigInt NumberToString msg w = (Normal tt, w') ->
  exists result,
    posted w' = Reply (id msg) result :: posted w
    /\ if bool_decide (m ∈ "new_game" :: setter_methods)
       then result = JsNull
       else exists g v, current w = Some g
                   /\ returned msg g = Some (Normal v)
                   /\ result = as_posted msg v.
Proof.
  intros Hn Hk H.
  destruct (situation msg w)
    as [Hm|Hm|m' Hn' Hm Hr|m' r Hn' Hm Hr Hg|m' r g Hn' Hm Hr Hg].
  - by destruct (Hm m Hn).
  - rewrite handle_new_game in H by done.
    destruct constructor; simplify_eq. exists JsNull. simpl.
    split; [done|]. assert (m = "new_game") as -> by congruence. done.
  - rewrite (handle_null msg m') in H by done. by simplify_eq.
  - destruct (handle_dangling msg m' w r) as [e' He]; try done.
    rewrite He in H. by simplify_eq.
  - assert (m' = m) as -> by congruence.
    rewrite (handle_live msg m w r g) in H by done.
    destruct (engine_step StringToBigInt msg g) as [?|[[v|?] g']] eqn:Hs; simplify_eq.
    exists v. split; [done|].
    pose proof (engine_step_returned msg m g v g' Hn Hm Hs) as Hret.
    destruct (bool_decide _); [done|].
    destruct Hret as (u & Hu & ->). exists g, u.
    split; [|done]. unfold current. rewrite Hr. simpl. done.
Qed.

(** C3, amended.  A message that can be destructured, whose method is not
    in the command set and has a string, gets exactly one message, with the
    request's id and the error string that names the method; [handle]
    returns normally, makes no engine call and leaves the objects and the
    handle as they are.  A method that is a string has that string.  When
    the method has no string, or the message is [undefined] or [null],
    [handle] throws and leaves the worker as it is: nothing is posted. *)
Theorem unknown_method_is_reported msg w :
  (forall m, method msg = JsString m -> m ∉ known_methods) ->
  (forall name,
      msg <> JsUndefined -> msg <> JsNull ->
      ToString NumberToString (method msg) = Normal name ->
      exists w',
        handle StringToBigInt NumberToString msg w = (Normal tt, w')
        /\ posted w'
           = Failure (id msg) ("unknown method: " ++ name) :: posted w
        /\ calls w' = calls w
        /\ heap w' = heap w
        /\ game w' = game w)
  /\ (forall m, method msg = JsString m ->
        ToString NumberToString (method msg) = Normal m)
  /\ (forall e,
        ToString NumberToString (method msg) = Throw e ->
        msg <> JsUndefined -> msg <> JsNull ->
        handle StringToBigInt NumberToString msg w = (Throw e, w))
  /\ (msg = JsUndefined \/ msg = JsNull ->
      exists what,
        handle StringToBigInt NumberToString msg w
        = (Throw (TypeError what), w)).
Proof.
  intros Hm. rewrite handle_unknown by done.
  split; [|split; [|split]].
  - intros name H1 H2 ->.
    destruct msg; try done; cbv [destructure mret Job_ret fst];
      eexists; (split; [reflexivity|done]).
  - intros m ->. reflexivity.
  - intros e -> H1 H2. by destruct msg.
  - intros [-> | ->]; eexists; reflexivity.
Qed.

Lemma onmessage_game msg w :
  method msg <> JsString "new_game" ->
  game (onmessage StringToBigInt NumberToString w msg) = game w.
Proof.
  intros Hnew. unfold onmessage.
  destruct (situation msg w)
    as [Hm|Hm|m Hn Hm Hr|m r Hn Hm Hr Hg|m r g Hn Hm Hr Hg].
  - destruct (handle_unknown_cases msg w Hm)
      as [(name & _ & _ & _ & ->)|(e' & _ & ->)]; done.
  - done.
  - by rewrite (handle_null msg m).
  - destruct (handle_dangling msg m w r) as [e' ->]; done.
  - rewrite (handle_live msg m w r g) by done.
    by destruct (engine_step StringToBigInt msg g) as [?|[[?|?] ?]].
Qed.

Lemma onmessage_keeps_objects msg w r g :
  heap w !! r = Some g ->
  is_Some (heap (onmessage StringToBigInt NumberToString w msg) !! r).
Proof.
  intros Hg. unfold onmessage.
  destruct (situation msg w)
    as [Hm|Hm|m Hn Hm Hr|m r0 Hn Hm Hr Hg0|m r0 g0 Hn Hm Hr Hg0].
  - destruct (handle_unknown_cases msg w Hm)
      as [(name & _ & _ & _ & ->)|(e' & _ & ->)]; simpl; eauto.
  - rewrite handle_new_game by done.
    destruct constructor; simpl; [|eauto].
    rewrite lookup_insert_ne; [eauto|].
    intros Heq. apply (is_fresh (dom (heap w))). rewrite Heq.
    apply elem_of_dom. eauto.
  - rewrite (handle_null msg m) by done. simpl. eauto.
  - destruct (handle_dangling msg m w r0) as [e' ->]; simpl; eauto.
  - rewrite (handle_live msg m w r0 g0) by done.
    destruct (engine_step StringToBigInt msg g0) as [?|[[?|?] ?]]; simpl; eauto;
      rewrite lookup_insert; destruct (decide (r0 = r)); eauto.
Qed.

Lemma onmessage_calls msg w c :
  c ∈ calls (onmessage StringToBigInt NumberToString w msg) ->
  c ∈ calls w
  \/ (exists r, c = CallNew r
                /\ is_Some (heap (onmessage StringToBigInt NumberToString w msg)
                              !! r))
  \/ exists r m, method msg = JsString m /\ c = CallMethod r m.
Proof.
  unfold onmessage.
  destruct (situation msg w)
    as [Hm|Hm|m Hn Hm Hr|m r0 Hn Hm Hr Hg0|m r0 g0 Hn Hm Hr Hg0].
  - destruct (handle_unknown_cases msg w Hm)
      as [(name & _ & _ & _ & ->)|(e' & _ & ->)]; simpl; eauto.
  - rewrite handle_new_game by done.
    destruct constructor; simpl; [|eauto].
    intros [->|?]%elem_of_cons; [|eauto].
    right. left. eexists. split; [done|]. rewrite lookup_insert_eq. eauto.
  - rewrite (handle_null msg m) by done. simpl. eauto.
  - destruct (handle_dangling msg m w r0) as [e' ->]; simpl; eauto.
  - rewrite (handle_live msg m w r0 g0) by done.
    destruct (engine_step StringToBigInt msg g0) as [?|[[?|?] ?]]; simpl; eauto;
      intros [->|?]%elem_of_cons; eauto 6.
Qed.

Lemma onmessage_linked msg w :
  linked w -> linked (onmessage StringToBigInt NumberToString w msg).
Proof.
  intros (r & g & Hr & Hg).
  destruct (situation msg w)
    as [Hm|Hm|m Hn Hm Hr'|m r0 Hn Hm Hr' Hg0|m r0 g0 Hn Hm Hr' Hg0].
  - unfold onmessage.
    destruct (handle_unknown_cases msg w Hm)
      as [(name & _ & _ & _ & ->)|(e' & _ & ->)]; by exists r, g.
  - unfold onmessage. rewrite handle_new_game by done.
    destruct constructor as [g0|]; simpl; [|by exists r, g].
    eexists _, g0. simpl. split; [done|]. apply lookup_insert_eq.
  - congruence.
  - congruence.
  - destruct (onmessage_keeps_objects msg w r g Hg) as [g' Hg'].
    exists r, g'. rewrite onmessage_game; [done|]. rewrite Hn.
    intros Heq. assert (m = "new_game") as -> by congruence.
    revert Hm. unfold engine_backed, known_methods. simpl tail.
    rewrite !elem_of_cons, elem_of_nil. intros H.
    repeat destruct H as [H|H]; done.
Qed.


Lemma run_app l1 l2 w :
  run StringToBigInt NumberToString (l1 ++ l2) w
  = run StringToBigInt NumberToString l2
      (run StringToBigInt NumberToString l1 w).
Proof. apply fold_left_app. Qed.




Lemma run_no_free msgs w :
  (forall r, CallFree r ∉ calls w) ->
  forall r, CallFree r ∉ calls (run StringToBigInt NumberToString msgs w).
Proof.
  revert w. induction msgs as [|m msgs IH]; intros w H; [done|].
  simpl. apply IH. intros r Hr.
  apply onmessage_calls in Hr as [?|[(? & ? & _)|(? & ? & _ & ?)]]; try done.
  by apply (H r).
Qed.

Lemma run_tracked msgs w :
  tracked w -> tracked (run StringToBigInt NumberToString msgs w).
Proof.
  revert w. induction msgs as [|m msgs IH]; intros w H; [done|].
  simpl. apply IH. intros r Hr.
  apply onmessage_calls in Hr as [Hr|[(? & ? & ?)|(? & ? & _ & ?)]]; simplify_eq.
  - destruct (H r Hr) as [g Hg]. by eapply onmessage_keeps_objects.
  - done.
Qed.

(** C10.  Whatever the messages, the worker never calls [free]; every
    object it has created is still alive; a [new_game] handled while the
    handle refers to an object makes the handle refer to another object
    and leaves the old one alive, unreleased. *)
Theorem game_objects_are_never_freed msgs :
  let w := run StringToBigInt NumberToString msgs boot in
  (forall r, CallFree r ∉ calls w)
  /\ (forall r, CallNew r ∈ calls w -> is_Some (heap w !! r))
  /\ (forall msg r g,
        method msg = JsString "new_game" ->
        game w = Some r -> heap w !! r = Some g ->
        (handle StringToBigInt NumberToString msg w).1 = Normal tt ->
        let w' := onmessage StringToBigInt NumberToString w msg in
        is_Some (game w') /\ game w' <> Some r
        /\ heap w' !! r = Some g
        /\ forall r', CallFree r' ∉ calls w').
Proof.
  intros w. split; [|split].
  - apply run_no_free. intros r Hr. by apply elem_of_nil in Hr.
  - apply run_tracked. intros r Hr. by apply elem_of_nil in Hr.
  - intros msg r g Hm Hr Hg Hok w'.
    assert (Hfree : forall r', CallFree r' ∉ calls w').
    { unfold w', w.
      change (onmessage StringToBigInt NumberToString
                (run StringToBigInt NumberToString msgs boot) msg)
        with (run StringToBigInt NumberToString [msg]
                (run StringToBigInt NumberToString msgs boot)).
      rewrite <- run_app. apply run_no_free.
      intros r' Hr'. by apply elem_of_nil in Hr'. }
    revert Hok Hfree. unfold w', onmessage.
    rewrite handle_new_game by done.
    destruct constructor as [g0|]; simpl; [intros _ Hfree|done].
    assert (Hne : fresh (dom (heap w)) <> r).
    { intros Heq. apply (is_fresh (dom (heap w))). rewrite Heq.
      apply elem_of_dom. eauto. }
    split; [eauto|]. split; [congruence|].
    split; [by rewrite lookup_insert_ne|done].
Qed.

(** What the worker never does: [free] releases the object and the call
    is on the trace. *)
Lemma free_releases r w :
  CallFree r ∈ calls (free r w).2 /\ heap (free r w).2 !! r = None.
Proof. split; [left|apply lookup_delete_eq]. Qed.

(** The response to [get_last_evals]. *)
Lemma get_last_evals_reply msg w r g n :
  method msg = JsString "get_last_evals" ->
  game w = Some r -> heap w !! r = Some g ->
  (get_last_evals g).1 = Normal n ->
  posted (onmessage StringToBigInt NumberToString w msg)
  = Reply (id msg) (JsNumber (Number_of_BigInt n)) :: posted w.
Proof.
  intros Hm Hr Hg Hn. unfold onmessage.
  rewrite (handle_live msg "get_last_evals" w r g);
    [|done|repeat constructor|done|done].
  unfold engine_step. rewrite Hm. simpl. unfold converted. rewrite Hn. done.
Qed.

(** C9.  The result posted for [get_last_evals] is [Number(n)] for the
    BigInt [n] the engine returned; converting it back gives [n] for every
    count up to 2^53 (for every integer of magnitude up to 2^53); and for a
    count above 2^53 it gives another integer. *)
Theorem last_evals_posted_as_number :
  (forall msg w r g n,
      method msg = JsString "get_last_evals" ->
      game w = Some r -> heap w !! r = Some g ->
      (get_last_evals g).1 = Normal n ->
      posted (onmessage StringToBigInt NumberToString w msg)
      = Reply (id msg) (JsNumber (Number_of_BigInt n)) :: posted w)
  /\ (forall n,
        - 2 ^ 53 <= n <= 2 ^ 53 ->
        BigInt_of_Number (Number_of_BigInt n) = Normal n)
  /\ (exists n,
        2 ^ 53 < n
        /\ BigInt_of_Number (Number_of_BigInt n) = Normal (n - 1)).
Proof.
  split; [apply get_last_evals_reply|]. split.
  - apply Number_exact.
  - exists (2 ^ 53 + 1). split; [lia|]. vm_compute. reflexivity.
Qed.

(** C1, amended.  When the engine call of a request returns, also when
    the returned value reports an error, [handle] completes and posts
    exactly one message: the request's id with the value that the case
    assigns to [result]. *)
Theorem returned_value_is_posted msg m w r g v g' :
  method msg = JsString m -> m ∈ engine_backed ->
  game w = Some r -> heap w !! r = Some g ->
  engine_step StringToBigInt msg g = inr (Normal v, g') ->
  (handle StringToBigInt NumberToString msg w).1 = Normal tt
  /\ posted (onmessage StringToBigInt NumberToString w msg)
     = Reply (id msg) v :: posted w.
Proof.
  intros Hn Hm Hr Hg Hs. unfold onmessage.
  rewrite (handle_live msg m w r g), Hs by done. done.
Qed.

End WorkerFacts.


(* ------------------------------------------------------------------ *)
(** ** The worker on the sample engine *)
(* ------------------------------------------------------------------ *)

Section OnTheSampleEngine.

Import Binding.

#[local] Existing Instance sample.

Lemma known_get_board_state : "get_board_state" ∈ known_methods.
Proof. unfold known_methods. rewrite !elem_of_cons. tauto. Qed.

(** An engine call that throws: [set_module] with a name that is not
    registered.  Nothing is posted for the request. *)
Lemma thrown_engine_error_is_lost : ~ surfaces_thrown_errors no_parse in_full.
Proof.
  intros H.
  destruct
    (H (request 2 "set_module" [JsString "no_such_module"; JsBoolean true])
       "set_module" opened (Engine.new Engine.sample_registry 1)
       (Engine.new Engine.sample_registry 1)
       (Raised (JsString "unknown module")))
    as (p & Hp & Hid).
  - reflexivity.
  - unfold engine_backed, known_methods. simpl. rewrite !elem_of_cons. tauto.
  - vm_compute. reflexivity.
  - vm_compute. reflexivity.
  - assert (Hsame : posted (onmessage no_parse in_full opened
                      (request 2 "set_module"
                         [JsString "no_such_module"; JsBoolean true]))
                    = [Reply (JsBigInt 1) JsNull]) by (vm_compute; reflexivity).
    rewrite Hsame in Hp. apply list_elem_of_singleton in Hp. subst p.
    discriminate Hid.
Qed.

Lemma returned_value_is_posted_witness :
  posted (onmessage no_parse in_full opened
            (request 2 "make_move"
               [Binding.num 1; Binding.num 4; Binding.num 4; Binding.num 4]))
  = Reply (JsBigInt 2) (JsObject [("error", JsString "illegal move")])
      :: posted opened.
Proof.
  refine (proj2 (returned_value_is_posted no_parse in_full
                   (request 2 "make_move"
                      [Binding.num 1; Binding.num 4; Binding.num 4; Binding.num 4])
                   "make_move"
                   opened 1%positive (Engine.new Engine.sample_registry 1)
                   (JsObject [("error", JsString "illegal move")])
                   (Engine.new Engine.sample_registry 1) _ _ _ _ _)).
  - reflexivity.
  - unfold engine_backed, known_methods. simpl. rewrite !elem_of_cons. tauto.
  - vm_compute. reflexivity.
  - vm_compute. reflexivity.
  - vm_compute. reflexivity.
Defined.

Lemma handle_posts_one_reply_witness :
  "get_board_state" ∈ known_methods
  /\ exists result,
       posted (onmessage no_parse in_full opened (request 2 "get_board_state" []))
       = Reply (JsBigInt 2) result :: posted opened.
Proof.
  split; [apply known_get_board_state|].
  destruct (handle_posts_one_reply no_parse in_full
              (request 2 "get_board_state" []) "get_board_state" opened
              (onmessage no_parse in_full opened
                 (request 2 "get_board_state" [])))
    as (result & Hp & _).
  - reflexivity.
  - apply known_get_board_state.
  - apply pair_of_fst. vm_compute. reflexivity.
  - exists result. exact Hp.
Defined.

(** A method object whose own [toString] hides the inherited one has no
    string: the [default] case throws before it posts. *)
Lemma unconvertible_method_is_not_reported :
  ~ reports_every_unknown_method no_parse in_full.
Proof.
  intros H. destruct (H unnameable boot) as (p & Hp & _).
  - intros m Hm. discriminate Hm.
  - assert (Hsame : posted (onmessage no_parse in_full boot unnameable) = [])
      by (vm_compute; reflexivity).
    rewrite Hsame in Hp. by apply elem_of_nil in Hp.
Qed.

Lemma unknown_method_is_reported_witness :
  ("resign" ∉ known_methods)
  /\ exists w',
       handle no_parse in_full (request 9 "resign" []) boot = (Normal tt, w')
       /\ posted w' = [Failure (JsBigInt 9) "unknown method: resign"].
Proof.
  assert (Hn : "resign" ∉ known_methods).
  { unfold known_methods. rewrite !elem_of_cons, elem_of_nil.
    intros H. repeat destruct H as [H|H]; discriminate H || exact H. }
  split; [exact Hn|].
  destruct (unknown_method_is_reported no_parse in_full
              (request 9 "resign" []) boot) as (Hposts & _).
  - intros m Hm. assert (m = "resign") as -> by (simpl in Hm; congruence).
    exact Hn.
  - destruct (Hposts "resign") as (w' & Hh & Hp & _);
      [discriminate|discriminate|reflexivity|].
    exists w'. split; [exact Hh|exact Hp].
Defined.


Lemma last_evals_posted_as_number_witness :
  - 2 ^ 53 <= 2 ^ 53 <= 2 ^ 53
  /\ BigInt_of_Number (Number_of_BigInt (2 ^ 53)) = Normal (2 ^ 53).
Proof.
  split; [lia|].
  apply (proj1 (proj2 (last_evals_posted_as_number no_parse in_full))). lia.
Defined.

Lemma game_objects_are_never_freed_witness :
  game opened = Some 1%positive
  /\ game (onmessage no_parse in_full opened (request 2 "new_game" [])) <> Some 1%positive
  /\ heap (onmessage no_parse in_full opened (request 2 "new_game" [])) !! 1%positive
     = Some (Engine.new Engine.sample_registry 1).
Proof.
  destruct (game_objects_are_never_freed no_parse in_full [request 1 "new_game" []])
    as (_ & _ & Hnew).
  destruct (Hnew (request 2 "new_game" []) 1%positive
              (Engine.new Engine.sample_registry 1))
    as (_ & Hother & Halive & _).
  - reflexivity.
  - vm_compute. reflexivity.
  - vm_compute. reflexivity.
  - vm_compute. reflexivity.
  - split; [vm_compute; reflexivity|]. split; [exact Hother|exact Halive].
Defined.

End OnTheSampleEngine.

(** The count 2^53 + 1 is posted as the Number 2^53: the result does not
    hold what the engine returned. *)
Lemma number_reply_loses_count :
  ~ replies_hold_returns (G := with_counter Binding.sample (2 ^ 53 + 1))
      Binding.no_parse Binding.in_full.
Proof.
  set (E := with_counter Binding.sample (2 ^ 53 + 1)).
  set (w := run (G := E) Binding.no_parse Binding.in_full [Binding.request 1 "new_game" []] boot).
  set (msg := Binding.request 2 "get_last_evals" []).
  intros H.
  destruct (H msg "get_last_evals" w
              (onmessage (G := E) Binding.no_parse Binding.in_full w msg))
    as (result & Hp & Hrest).
  - reflexivity.
  - unfold known_methods. simpl. rewrite !elem_of_cons. tauto.
  - apply pair_of_fst. vm_compute. reflexivity.
  - assert (Hposted :
        posted (onmessage (G := E) Binding.no_parse Binding.in_full w msg)
        = Reply (JsBigInt 2) (JsNumber (Number_of_BigInt (2 ^ 53 + 1)))
            :: posted w) by (vm_compute; reflexivity).
    rewrite Hposted in Hp. change (id msg) with (JsBigInt 2) in Hp.
    assert (result = JsNumber (Number_of_BigInt (2 ^ 53 + 1))) as ->
      by congruence.
    change (bool_decide _) with false in Hrest. cbv iota in Hrest.
    destruct Hrest as (g & v & _ & Hv & Hholds).
    change (returned msg g) with (Some (Normal (JsBigInt (2 ^ 53 + 1)))) in Hv.
    assert (v = JsBigInt (2 ^ 53 + 1)) as -> by congruence.
    destruct Hholds as [Heq|(n & x & Hn & Hx & Hnx)].
    + discriminate Heq.
    + assert (Hback : integer_of_float (Number_of_BigInt (2 ^ 53 + 1))
                      = Some (2 ^ 53)) by (vm_compute; reflexivity).
      assert (n = 2 ^ 53 + 1) as -> by congruence.
      assert (x = Number_of_BigInt (2 ^ 53 + 1)) as -> by congruence.
      rewrite Hback in Hnx. injection Hnx. lia.
Qed.

(* ================================================================== *)
(** * The declaration file *)
(* ================================================================== *)

Module DeclarationFacts.
Import Declarations.

(** C4.  The binding surface declares the command set and nothing less:
    each command of the set is a method of [Game] with exactly the listed
    parameters; the constructor takes no argument; [build_timestamp] is a
    function of the module, not a member of the class, and takes no
    argument.  The only other methods of the class are the two that release
    the object. *)
Theorem binding_exposes_command_set :
  Forall (fun c => signature c.1 = Some c.2) command_set
  /\ filter (fun m => member_kind m = Constructor) Game_declaration
     = [ {| member_kind := Constructor; member_name := "constructor";
            params := []; returns := TsVoid |} ]
  /\ ExportFunction "build_timestamp" 0 (Some TsString) ∈ exports
  /\ ("build_timestamp" ∉ member_name <$> Game_declaration)
  /\ (forall n,
        n ∈ method_names
        <-> n ∈ command_set.*1 \/ n = "free" \/ n = "[Symbol.dispose]").
Proof.
  split; [repeat constructor|]. split; [reflexivity|].
  split; [right; left|]. split.
  - apply (bool_decide_unpack _). vm_compute. exact I.
  - intros n. change method_names with
      ["free"; "[Symbol.dispose]"; "get_board_state"; "get_eval_breakdown";
       "get_hint"; "get_last_evals"; "get_legal_moves_for_square";
       "make_ai_move"; "make_move"; "set_auto_deepen"; "set_depth";
       "set_module"].
    change (command_set.*1) with
      ["make_move"; "make_ai_move"; "get_board_state";
       "get_legal_moves_for_square"; "get_hint"; "get_eval_breakdown";
       "get_last_evals"; "set_module"; "set_depth"; "set_auto_deepen"].
    rewrite !elem_of_cons, !elem_of_nil. tauto.
Qed.

(** The worker has a case for every command of the set, and no other
    engine-backed case. *)
Lemma worker_dispatches_command_set (n : string) :
  n ∈ engine_backed <-> n ∈ command_set.*1.
Proof.
  unfold engine_backed, known_methods. simpl tail.
  change (command_set.*1) with
    ["make_move"; "make_ai_move"; "get_board_state";
     "get_legal_moves_for_square"; "get_hint"; "get_eval_breakdown";
     "get_last_evals"; "set_module"; "set_depth"; "set_auto_deepen"].
  rewrite !elem_of_cons, !elem_of_nil. tauto.
Qed.

End DeclarationFacts.

(* ================================================================== *)
(** * Sessions: what a client of the worker can rely on *)
(* ================================================================== *)

Section SessionFacts.
Context {G : Game}.
Variable parse : JsValue -> completion Z.
Variable show : spec_float -> string.

(** One message, one step of the worker. *)
Lemma onmessage_step msg w :
  ((forall m, method msg = JsString m -> m ∉ known_methods)
   /\ exists name,
       ToString show (method msg) = Normal name
       /\ onmessage parse show w msg
          = answered (Failure (id msg) ("unknown method: " ++ name)) w
       /\ (handle parse show msg w).1 = Normal tt)
  \/ (method msg = JsString "new_game"
      /\ exists g0, constructor = Normal g0
      /\ (handle parse show msg w).1 = Normal tt
      /\ onmessage parse show w msg
         = {| game := Some (fresh (dom (heap w)));
              heap := <[fresh (dom (heap w)) := g0]> (heap w);
              posted := Reply (id msg) JsNull :: posted w;
              calls := CallNew (fresh (dom (heap w))) :: calls w |})
  \/ ((exists e,
         (handle parse show msg w).1 = Throw e
         /\ ((exists m, method msg = JsString m /\ m ∈ known_methods)
             \/ msg = JsUndefined \/ msg = JsNull
             \/ ToString show (method msg) = Throw e))
      /\ onmessage parse show w msg = w)
  \/ (exists m r g g',
        method msg = JsString m /\ m ∈ engine_backed
        /\ game w = Some r /\ heap w !! r = Some g
        /\ ((exists v, engine_step parse msg g = inr (Normal v, g')
                  /\ (handle parse show msg w).1 = Normal tt
                  /\ onmessage parse show w msg
                     = answered (Reply (id msg) v) (called r m g' w))
            \/ (exists e, engine_step parse msg g = inr (Throw e, g')
                  /\ (handle parse show msg w).1 = Throw e
                  /\ onmessage parse show w msg = called r m g' w))).
Proof.
  unfold onmessage.
  destruct (situation msg w)
    as [Hm|Hm|m Hn Hm Hr|m r Hn Hm Hr Hg|m r g Hn Hm Hr Hg].
  - destruct (handle_unknown_cases parse show msg w Hm)
      as [(name & _ & _ & Hs & ->)|(e & He & ->)].
    + left. split; [done|]. by exists name.
    + right. right. left. split; [|done]. exists e. split; [done|].
      destruct He as [?|[?|?]]; auto.
  - rewrite handle_new_game by done.
    destruct constructor as [g0|e] eqn:Hc.
    + right. left. split; [done|]. exists g0. done.
    + right. right. left. split; [|done]. exists e. split; [done|].
      left. exists "new_game". split; [done|].
      apply known_new_or_backed. by left.
  - right. right. left. rewrite (handle_null parse show msg m) by done.
    split; [|done]. eexists. split; [done|].
    left. exists m. split; [done|]. apply known_new_or_backed. by right.
  - right. right. left.
    destruct (handle_dangling parse show msg m w r) as [e ->]; try done.
    split; [|done]. exists e. split; [done|].
    left. exists m. split; [done|]. apply known_new_or_backed. by right.
  - rewrite (handle_live parse show msg m w r g) by done.
    destruct (engine_step parse msg g) as [e|[[v|e] g']] eqn:Hs.
    + right. right. left. split; [|done]. exists e. split; [done|].
      left. exists m. split; [done|]. apply known_new_or_backed. by right.
    + right. right. right. exists m, r, g, g'.
      do 4 (split; [done|]). left. exists v. done.
    + right. right. right. exists m, r, g, g'.
      do 4 (split; [done|]). right. exists e. done.
Qed.

(** X1.  [handle] posts exactly when it completes: a call that returns has
    posted one message, which carries the request's id, a result for a
    command of the switch and an error for any other method; a call that
    throws has posted nothing and has left the handle where it was, and it
    was a command of the switch, or a message that is [undefined] or
    [null], or a method that has no string. *)
Theorem handle_posts_exactly_when_it_completes msg w :
  ((handle parse show msg w).1 = Normal tt ->
   exists p,
     posted (onmessage parse show w msg) = p :: posted w
     /\ posted_id p = Some (id msg)
     /\ ((exists m, method msg = JsString m /\ m ∈ known_methods)
         <-> exists result, p = Reply (id msg) result)
     /\ ((forall m, method msg = JsString m -> m ∉ known_methods)
         <-> exists error, p = Failure (id msg) error))
  /\ (forall e, (handle parse show msg w).1 = Throw e ->
        posted (onmessage parse show w msg) = posted w
        /\ game (onmessage parse show w msg) = game w
        /\ ((exists m, method msg = JsString m /\ m ∈ known_methods)
            \/ msg = JsUndefined \/ msg = JsNull
            \/ ToString show (method msg) = Throw e)).
Proof.
  destruct (onmessage_step msg w)
    as [(Hm & name & _ & -> & Hc)|[(Hm & g0 & _ & Hc & ->)
       |[((e & He & Hwhy) & ->)
        |(m & r & g & g' & Hn & Hm & Hr & Hg
          & [(v & _ & Hc & ->)|(e & _ & Hc & ->)])]]];
    rewrite ?Hc, ?He; (split; [intros Hok|intros e' He']); simplify_eq; simpl.
  - eexists. split; [done|]. split; [done|]. split; split.
    + intros (m & Hn & Hk). by destruct (Hm m Hn).
    + intros (? & ?). done.
    + eauto.
    + done.
  - eexists. split; [done|]. split; [done|].
    assert ("new_game" ∈ known_methods) by (apply known_new_or_backed; by left).
    split; split.
    + eauto.
    + eauto.
    + intros Hno. by destruct (Hno "new_game" Hm).
    + intros (? & ?). done.
  - done.
  - eexists. split; [done|]. split; [done|].
    assert (m ∈ known_methods) by (apply known_new_or_backed; by right).
    split; split.
    + eauto.
    + eauto.
    + intros Hno. by destruct (Hno m Hn).
    + intros (? & ?). done.
  - split; [done|]. split; [done|]. left. exists m. split; [done|].
    apply known_new_or_backed. by right.
Qed.

(** X2.  A request leads to at most one engine call: none, or the
    construction of an object under a reference that was not in use, or one
    call of the method the request names, on the object the handle refers
    to. *)
Theorem at_most_one_engine_call msg w :
  calls (onmessage parse show w msg) = calls w
  \/ (method msg = JsString "new_game"
      /\ exists r, heap w !! r = None
          /\ calls (onmessage parse show w msg) = CallNew r :: calls w)
  \/ (exists m, method msg = JsString m /\ m ∈ engine_backed
      /\ exists r, game w = Some r
          /\ calls (onmessage parse show w msg)
             = CallMethod r m :: calls w).
Proof.
  destruct (onmessage_step msg w)
    as [(Hm & name & _ & -> & Hc)|[(Hm & g0 & _ & Hc & ->)
       |[(_ & ->)
        |(m & r & g & g' & Hn & Hm & Hr & Hg
          & [(v & _ & Hc & ->)|(e & _ & Hc & ->)])]]];
    simpl; eauto 10.
  right. left. split; [done|]. eexists. split; [|done].
  apply not_elem_of_dom, is_fresh.
Qed.

Lemma posted_ids_step msg w :
  posted_ids (onmessage parse show w msg) = posted_ids w
  \/ posted_ids (onmessage parse show w msg) = (posted_ids w ++ [id msg])%list.
Proof.
  unfold posted_ids.
  destruct (onmessage_step msg w)
    as [(Hm & name & _ & -> & Hc)|[(Hm & g0 & _ & Hc & ->)
       |[(_ & ->)
        |(m & r & g & g' & Hn & Hm & Hr & Hg
          & [(v & _ & Hc & ->)|(e & _ & Hc & ->)])]]];
    simpl; rewrite ?reverse_cons, ?omap_app; simpl; auto.
Qed.

(** X3.  Responses come in the order of the requests, at most one for each:
    the ids posted while a list of requests is handled are a sublist of the
    requests' ids. *)
Theorem responses_follow_requests msgs w :
  exists ids,
    posted_ids (run parse show msgs w) = (posted_ids w ++ ids)%list
    /\ ids `sublist_of` (id <$> msgs).
Proof.
  revert w. induction msgs as [|m msgs IH]; intros w; simpl.
  - exists []. by rewrite app_nil_r.
  - destruct (IH (onmessage parse show w m)) as (ids & -> & Hsub).
    destruct (posted_ids_step m w) as [-> | ->].
    + exists ids. split; [done|]. by apply sublist_cons.
    + exists (id m :: ids). rewrite <- app_assoc. split; [done|].
      by apply sublist_skip.
Qed.

Lemma onmessage_answers g0 msg w :
  constructor = Normal g0 -> linked w ->
  (forall m, method msg = JsString m -> m ∈ engine_backed ->
             accepted parse msg) ->
  ((forall m, method msg = JsString m -> m ∉ known_methods) ->
   nameable show msg) ->
  posted_ids (onmessage parse show w msg) = (posted_ids w ++ [id msg])%list.
Proof.
  intros Hc (r & g & Hr & Hg) Hacc Hname. unfold posted_ids, onmessage.
  destruct (situation msg w)
    as [Hm|Hm|m Hn Hm Hr'|m r0 Hn Hm Hr' Hg0|m r0 g1 Hn Hm Hr' Hg0].
  - destruct (Hname Hm) as (H1 & H2 & name & Hs).
    destruct (handle_unknown_cases parse show msg w Hm)
      as [(name' & _ & _ & _ & ->)|(e & He & _)].
    + simpl. by rewrite reverse_cons, omap_app.
    + destruct He as [?|[?|?]]; congruence.
  - rewrite handle_new_game, Hc by done. simpl.
    by rewrite reverse_cons, omap_app.
  - congruence.
  - congruence.
  - rewrite (handle_live parse show msg m w r0 g1) by done.
    destruct (Hacc m Hn Hm g1) as (v & g' & ->). simpl.
    by rewrite reverse_cons, omap_app.
Qed.

(** X4.  Once a game is open and the constructor works, every request is
    answered, in order, when the engine accepts the engine-backed requests
    and the requests that name no command can be destructured and have a
    method with a string: the ids posted are exactly the ids of the
    requests. *)
Theorem accepted_requests_are_all_answered g0 msgs w :
  constructor = Normal g0 -> linked w ->
  (forall msg m, msg ∈ msgs ->
     method msg = JsString m -> m ∈ engine_backed -> accepted parse msg) ->
  (forall msg, msg ∈ msgs ->
     (forall m, method msg = JsString m -> m ∉ known_methods) ->
     nameable show msg) ->
  posted_ids (run parse show msgs w) = (posted_ids w ++ (id <$> msgs))%list.
Proof.
  intros Hc. revert w.
  induction msgs as [|m msgs IH]; intros w Hw Hacc Hname.
  - simpl. by rewrite app_nil_r.
  - simpl. rewrite IH.
    + rewrite (onmessage_answers g0); try done.
      * by rewrite <- app_assoc.
      * intros m0. apply Hacc. by left.
      * apply Hname. by left.
    + by apply onmessage_linked.
    + intros m' k Hm'. apply Hacc. by right.
    + intros m' Hm'. apply Hname. by right.
Qed.

Lemma onmessage_spares msg w r g :
  heap w !! r = Some g -> game w <> Some r ->
  heap (onmessage parse show w msg) !! r = Some g
  /\ game (onmessage parse show w msg) <> Some r.
Proof.
  intros Hg Hr.
  assert (Hfresh : fresh (dom (heap w)) <> r).
  { intros Heq. apply (is_fresh (dom (heap w))). rewrite Heq.
    apply elem_of_dom. eauto. }
  destruct (onmessage_step msg w)
    as [(Hm & name & _ & -> & Hc)|[(Hm & g0 & _ & Hc & ->)
       |[(_ & ->)
        |(m & r0 & g1 & g' & Hn & Hm & Hr0 & Hg0
          & [(v & _ & Hc & ->)|(e & _ & Hc & ->)])]]];
    simpl; try done.
  - split; [by rewrite lookup_insert_ne|congruence].
  - split; [|done]. rewrite lookup_insert_ne; [done|congruence].
  - split; [|done]. rewrite lookup_insert_ne; [done|congruence].
Qed.

(** X5.  An object the handle no longer refers to is never called again and
    never released: whatever requests follow, it stays in the heap as it
    was, and the handle never returns to it. *)
Theorem replaced_object_is_never_touched msgs w r g :
  heap w !! r = Some g -> game w <> Some r ->
  heap (run parse show msgs w) !! r = Some g
  /\ game (run parse show msgs w) <> Some r.
Proof.
  revert w. induction msgs as [|m msgs IH]; intros w Hg Hr; [done|].
  simpl. destruct (onmessage_spares m w r g Hg Hr). by apply IH.
Qed.

Lemma engine_backed_not_new_game m :
  m ∈ engine_backed -> m <> "new_game".
Proof.
  intros Hm ->. revert Hm. unfold engine_backed, known_methods. simpl tail.
  rewrite !elem_of_cons, elem_of_nil. intros H.
  repeat destruct H as [H|H]; done.
Qed.

Lemma onmessage_size g0 msg w :
  constructor = Normal g0 ->
  size (heap (onmessage parse show w msg))
  = (size (heap w)
     + if bool_decide (method msg = JsString "new_game") then 1 else 0)%nat.
Proof.
  intros Hc0. unfold onmessage.
  destruct (situation msg w)
    as [Hm|Hm|m Hn Hm Hr|m r Hn Hm Hr Hg|m r g Hn Hm Hr Hg].
  - rewrite bool_decide_eq_false_2.
    + destruct (handle_unknown_cases parse show msg w Hm)
        as [(name & _ & _ & _ & ->)|(e & _ & ->)]; simpl; lia.
    + intros Heq. apply (Hm _ Heq), known_new_or_backed. by left.
  - rewrite bool_decide_eq_true_2, handle_new_game, Hc0 by done. simpl.
    rewrite map_size_insert_None; [lia|]. apply not_elem_of_dom, is_fresh.
  - rewrite bool_decide_eq_false_2, (handle_null parse show msg m) by
      (try done; rewrite Hn; intros ?; simplify_eq;
       by apply (engine_backed_not_new_game "new_game")).
    simpl. lia.
  - rewrite bool_decide_eq_false_2 by
      (rewrite Hn; intros ?; simplify_eq;
       by apply (engine_backed_not_new_game "new_game")).
    destruct (handle_dangling parse show msg m w r Hn Hm Hr Hg) as [e ->].
    simpl. lia.
  - rewrite bool_decide_eq_false_2 by
      (rewrite Hn; intros ?; simplify_eq;
       by apply (engine_backed_not_new_game "new_game")).
    rewrite (handle_live parse show msg m w r g) by done.
    destruct (engine_step parse msg g) as [e|[[v|e] g']]; simpl;
      rewrite ?map_size_insert_Some by eauto; lia.
Qed.

(** X6.  With a constructor that works, the number of live objects grows by
    one with every [new_game] request and with no other request. *)
Theorem every_new_game_adds_an_object g0 msgs w :
  constructor = Normal g0 ->
  size (heap (run parse show msgs w))
  = (size (heap w)
     + length (filter (fun m => method m = JsString "new_game") msgs))%nat.
Proof.
  intros Hc. revert w. induction msgs as [|m msgs IH]; intros w; simpl.
  - lia.
  - rewrite IH, (onmessage_size g0) by done. rewrite filter_cons.
    destruct (decide (method m = JsString "new_game")).
    + rewrite bool_decide_eq_true_2 by done. simpl. lia.
    + rewrite bool_decide_eq_false_2 by done. lia.
Qed.

Lemma onmessage_advance msg w r g :
  method msg <> JsString "new_game" ->
  game w = Some r -> heap w !! r = Some g ->
  game (onmessage parse show w msg) = Some r
  /\ heap (onmessage parse show w msg) !! r = Some (advance parse g msg).
Proof.
  intros Hnew Hr Hg. unfold advance, onmessage.
  destruct (situation msg w)
    as [Hm|Hm|m Hn Hm Hr'|m r0 Hn Hm Hr' Hg0|m r0 g1 Hn Hm Hr' Hg0];
    try congruence.
  - assert (Hg' : match method msg with
                  | JsString m =>
                      if bool_decide (m ∈ engine_backed)
                      then match engine_step parse msg g with
                           | inr (_, g') => g'
                           | inl _ => g
                           end
                      else g
                  | _ => g
                  end = g).
    { destruct (method msg) as [| | | | |m| |] eqn:Hn; try done.
      rewrite bool_decide_eq_false_2; [done|].
      intros Hb. apply (Hm m eq_refl), known_new_or_backed. by right. }
    rewrite Hg'.
    destruct (handle_unknown_cases parse show msg w Hm)
      as [(name & _ & _ & _ & ->)|(e & _ & ->)]; done.
  - assert (r0 = r) as -> by congruence. assert (g1 = g) as -> by congruence.
    rewrite Hn, bool_decide_eq_true_2 by done.
    rewrite (handle_live parse show msg m w r g) by done.
    destruct (engine_step parse msg g) as [e|[[v|e] g']]; simpl;
      rewrite ?lookup_insert_eq; done.
Qed.

(** X7.  Between two [new_game] requests every request reaches the same
    object, one after the other: the handle stays, and the object is what
    the engine calls of the requests, in their order, make of it.  A request
    that throws before its call, or that names no command, leaves it as it
    is. *)
Theorem requests_reach_one_object_in_order msgs w r g :
  (forall m, m ∈ msgs -> method m <> JsString "new_game") ->
  game w = Some r -> heap w !! r = Some g ->
  game (run parse show msgs w) = Some r
  /\ heap (run parse show msgs w) !! r
     = Some (fold_left (advance parse) msgs g).
Proof.
  revert w g. induction msgs as [|m msgs IH]; intros w g Hn Hr Hg; [done|].
  simpl.
  destruct (onmessage_advance m w r g) as [Hr' Hg']; try done.
  { apply Hn. by left. }
  apply IH; try done. intros m' Hm'. apply Hn. by right.
Qed.

(** X8.  A request for a command that reads [args], sent without [args]
    (or with [null] for it) while a game is open, ends in a TypeError
    before the engine is called: nothing is posted and the worker is as it
    was. *)
Theorem missing_arguments_stop_before_the_engine msg m w r :
  method msg = JsString m -> m ∈ argument_methods ->
  args msg = JsUndefined \/ args msg = JsNull ->
  game w = Some r ->
  exists what, handle parse show msg w = (Throw (TypeError what), w).
Proof.
  intros Hn Hm Ha Hr. destruct (method_of_object msg m Hn) as [props ->].
  unfold argument_methods in Hm.
  repeat (apply elem_of_cons in Hm as [->|Hm]);
    [.. | by apply elem_of_nil in Hm];
    cbv [handle dispatch destructure
         mbind mret Job_bind Job_ret deref read_game spread index throw lift];
    rewrite Hn; cbv [selects String.eqb Ascii.eqb Bool.eqb andb];
    rewrite Hr; destruct Ha as [-> | ->]; eexists; reflexivity.
Qed.

(** X9.  A threshold sent as the Number of an integer [n] of at most 53
    bits reaches [set_auto_deepen] as the BigInt [n]: the request does what
    the engine call with [args[0]] and [n] does, and is answered with
    [null] when the call returns. *)
Theorem auto_deepen_threshold_arrives_exact msg w r g a n :
  method msg = JsString "set_auto_deepen" ->
  args msg = JsArray a ->
  a !! 1%nat = Some (JsNumber (Number_of_BigInt n)) ->
  - 2 ^ 53 <= n <= 2 ^ 53 ->
  game w = Some r -> heap w !! r = Some g ->
  handle parse show msg w
  = after_setter r msg "set_auto_deepen"
      (set_auto_deepen (default JsUndefined (a !! 0%nat)) n g) w.
Proof.
  intros Hm Ha H1 Hn Hr Hg.
  rewrite (handle_live parse show msg "set_auto_deepen" w r g); [|done| |done..].
  - unfold engine_step, after_setter. rewrite Hm, Ha. simpl. rewrite H1. simpl.
    unfold BigInt_of_Number.
    pose proof (Number_exact n Hn) as Hx. unfold BigInt_of_Number in Hx.
    destruct (integer_of_float (Number_of_BigInt n)) as [z|]; [|done].
    assert (z = n) as -> by congruence.
    unfold converted.
    destruct (set_auto_deepen (default JsUndefined (a !! 0%nat)) n g)
      as [[[]|e] g']; done.
  - unfold engine_backed, known_methods. simpl. rewrite !elem_of_cons. tauto.
Qed.

(** X10.  A [set_auto_deepen] request whose threshold is missing,
    [undefined], [null] or a Number that is not an integer ends in a
    TypeError or a RangeError before the engine is called: nothing is
    posted and the worker is as it was. *)
Theorem rejected_threshold_stops_before_the_engine msg w r a :
  method msg = JsString "set_auto_deepen" ->
  args msg = JsArray a ->
  game w = Some r ->
  (a !! 1%nat = None \/ a !! 1%nat = Some JsUndefined
   \/ a !! 1%nat = Some JsNull
   \/ exists x, a !! 1%nat = Some (JsNumber x) /\ integer_of_float x = None) ->
  exists e, handle parse show msg w = (Throw e, w)
            /\ ((exists what, e = TypeError what)
                \/ (exists what, e = RangeError what)).
Proof.
  intros Hm Ha Hr Hbad. destruct (method_of_object msg _ Hm) as [props ->].
  cbv [handle dispatch destructure
       mbind mret Job_bind Job_ret deref read_game spread index throw lift].
  rewrite Hm; cbv [selects String.eqb Ascii.eqb Bool.eqb andb].
  rewrite Hr, Ha. cbv [subscript].
  destruct Hbad as [H|[H|[H|(x & H & Hx)]]]; rewrite H; simpl;
    unfold BigInt_of_Number; rewrite ?Hx; eauto 6.
Qed.

(** X11.  The response to [get_last_evals] is a Number that denotes an
    integer, and for a count of at most 64 bits that integer is within 2^10
    of the count the engine returned; sent back through [BigInt], it is that
    integer again. *)
Theorem last_evals_reply_is_close msg w r g n :
  method msg = JsString "get_last_evals" ->
  game w = Some r -> heap w !! r = Some g ->
  (get_last_evals g).1 = Normal n ->
  Z.abs n < 2 ^ 64 ->
  exists x z,
    posted (onmessage parse show w msg)
    = Reply (id msg) (JsNumber x) :: posted w
    /\ BigInt parse (JsNumber x) = Normal z
    /\ Z.abs (z - n) <= 2 ^ 10.
Proof.
  intros Hm Hr Hg Hn Hbound.
  destruct (Number_close n Hbound) as (z & Hz & Hclose).
  exists (Number_of_BigInt n), z.
  split; [by apply (get_last_evals_reply parse show msg w r g n)|].
  split; [|done]. simpl. unfold BigInt_of_Number. by rewrite Hz.
Qed.

(** The handler of the [catch]: it posts [err.message], or throws when
    reading it throws. *)
Lemma startup_rejected init build_timestamp err w :
  init = Throw err \/ (init = Normal tt /\ build_timestamp = Throw err) ->
  startup init build_timestamp w
  = match message err with
    | Normal error => (Normal tt, answered (InitError error) w)
    | Throw e => (Throw e, w)
    end.
Proof.
  intros [-> | [-> ->]];
    cbv [startup catch initialize mbind mret Job_bind Job_ret lift postMessage];
    by destruct (message err).
Qed.

(** X12.  The start of the worker posts one message, without an id, and
    touches nothing else: when the module loaded and [build_timestamp]
    returned [t], the init message with the timestamp [t]; when either of
    them threw [err], the init_error message with [err.message], which is
    the message of an error of the language, the own property [message] of
    a thrown object, and [undefined] for any other thrown value.  Only a
    thrown [null] or [undefined] is not reported: reading its message
    throws a TypeError, and nothing is posted. *)
Theorem startup_reports_timestamp_or_message init build_timestamp w :
  (forall t,
      init = Normal tt -> build_timestamp = Normal t ->
      startup init build_timestamp w = (Normal tt, answered (Init t) w))
  /\ (forall err,
        init = Throw err \/ (init = Normal tt /\ build_timestamp = Throw err) ->
        (forall what,
            err = TypeError what \/ err = RangeError what ->
            startup init build_timestamp w
            = (Normal tt, answered (InitError (JsString what)) w))
        /\ (forall props,
              err = Raised (JsObject props) ->
              startup init build_timestamp w
              = (Normal tt,
                 answered (InitError (property props "message")) w))
        /\ (forall v,
              err = Raised v ->
              (forall props, v <> JsObject props) ->
              v <> JsUndefined -> v <> JsNull ->
              startup init build_timestamp w
              = (Normal tt, answered (InitError JsUndefined) w))
        /\ (err = Raised JsUndefined \/ err = Raised JsNull ->
            exists what,
              startup init build_timestamp w = (Throw (TypeError what), w))).
Proof.
  split.
  - intros t -> ->. reflexivity.
  - intros err Herr. rewrite (startup_rejected init build_timestamp err w Herr).
    split; [|split; [|split]].
    + intros what [-> | ->]; reflexivity.
    + intros props ->. reflexivity.
    + intros v -> Hobj Hu Hn.
      destruct v; try done. by destruct (Hobj props).
    + intros [-> | ->]; eexists; reflexivity.
Qed.

End SessionFacts.

Section SessionsOnTheSampleEngine.

Import Binding.

#[local] Existing Instance sample.

Lemma handle_posts_exactly_when_it_completes_witness :
  exists p,
    posted (onmessage no_parse in_full opened (request 2 "get_board_state" []))
    = p :: posted opened
    /\ posted_id p = Some (JsBigInt 2).
Proof.
  destruct (handle_posts_exactly_when_it_completes (G := sample) no_parse in_full
              (request 2 "get_board_state" []) opened) as [Hok _].
  destruct Hok as (p & Hp & Hid & _).
  - vm_compute. reflexivity.
  - exists p. split; [exact Hp|exact Hid].
Defined.

Lemma accepted_requests_are_all_answered_witness :
  posted_ids (run no_parse in_full
                [request 2 "get_board_state" []; request 3 "resign" []] opened)
  = (posted_ids opened ++ [JsBigInt 2; JsBigInt 3])%list.
Proof.
  apply (accepted_requests_are_all_answered (G := sample) no_parse in_full
           (Engine.new Engine.sample_registry 1)
           [request 2 "get_board_state" []; request 3 "resign" []] opened).
  - reflexivity.
  - exists 1%positive, (Engine.new Engine.sample_registry 1).
    split; vm_compute; reflexivity.
  - intros msg m Hin Hn Hb.
    apply elem_of_cons in Hin as [-> | Hin].
    + intros g. eexists _, _. reflexivity.
    + apply list_elem_of_singleton in Hin as ->. exfalso.
      assert (m = "resign") as -> by (simpl in Hn; congruence).
      revert Hb. unfold engine_backed, known_methods. simpl tail.
      rewrite !elem_of_cons, elem_of_nil. intros H.
      repeat destruct H as [H|H]; discriminate H || exact H.
  - intros msg Hin Hno.
    apply elem_of_cons in Hin as [-> | Hin].
    + exfalso. apply (Hno "get_board_state" eq_refl).
      unfold known_methods. rewrite !elem_of_cons. tauto.
    + apply list_elem_of_singleton in Hin as ->.
      split; [discriminate|]. split; [discriminate|].
      exists "resign". reflexivity.
Defined.

Lemma replaced_object_is_never_touched_witness :
  heap (run no_parse in_full [request 3 "make_ai_move" []]
          (run no_parse in_full [request 1 "new_game" []; request 2 "new_game" []] boot))
    !! 1%positive
  = Some (Engine.new Engine.sample_registry 1)
  /\ game (run no_parse in_full [request 3 "make_ai_move" []]
             (run no_parse in_full [request 1 "new_game" []; request 2 "new_game" []]
                boot))
     <> Some 1%positive.
Proof.
  apply (replaced_object_is_never_touched (G := sample) no_parse in_full
           [request 3 "make_ai_move" []]
           (run no_parse in_full [request 1 "new_game" []; request 2 "new_game" []] boot)
           1%positive (Engine.new Engine.sample_registry 1)).
  - vm_compute. reflexivity.
  - assert (Hg : game (run no_parse in_full
                         [request 1 "new_game" []; request 2 "new_game" []] boot)
                 = Some 2%positive) by (vm_compute; reflexivity).
    rewrite Hg. discriminate.
Defined.

Lemma every_new_game_adds_an_object_witness :
  size (heap (run no_parse in_full
                [request 1 "new_game" []; request 2 "get_board_state" [];
                 request 3 "new_game" []] boot))
  = (size (heap boot)
     + length (filter (fun m => method m = JsString "new_game")
                 [request 1 "new_game" []; request 2 "get_board_state" [];
                  request 3 "new_game" []]))%nat.
Proof.
  apply (every_new_game_adds_an_object (G := sample) no_parse in_full
           (Engine.new Engine.sample_registry 1)).
  reflexivity.
Defined.

Lemma requests_reach_one_object_in_order_witness :
  game (run no_parse in_full
          [request 2 "set_depth" [num 2]; request 3 "resign" []] opened)
  = Some 1%positive
  /\ heap (run no_parse in_full
             [request 2 "set_depth" [num 2]; request 3 "resign" []] opened)
       !! 1%positive
     = Some (fold_left (advance no_parse)
               [request 2 "set_depth" [num 2]; request 3 "resign" []]
               (Engine.new Engine.sample_registry 1)).
Proof.
  apply (requests_reach_one_object_in_order (G := sample) no_parse in_full
           [request 2 "set_depth" [num 2]; request 3 "resign" []] opened
           1%positive (Engine.new Engine.sample_registry 1)).
  - intros m Hm. apply elem_of_cons in Hm as [-> | Hm].
    + discriminate.
    + apply list_elem_of_singleton in Hm as ->. discriminate.
  - vm_compute. reflexivity.
  - vm_compute. reflexivity.
Defined.

Lemma missing_arguments_stop_before_the_engine_witness :
  exists what,
    handle no_parse in_full
      (JsObject [("id", JsBigInt 2); ("method", JsString "make_move")]) opened
    = (Throw (TypeError what), opened).
Proof.
  apply (missing_arguments_stop_before_the_engine (G := sample)
           no_parse in_full
           (JsObject [("id", JsBigInt 2); ("method", JsString "make_move")])
           "make_move" opened 1%positive).
  - reflexivity.
  - unfold argument_methods. simpl. rewrite !elem_of_cons. tauto.
  - left. reflexivity.
  - vm_compute. reflexivity.
Defined.

Lemma auto_deepen_threshold_arrives_exact_witness :
  handle no_parse in_full
    (request 2 "set_auto_deepen" [JsBoolean true; num 5000]) opened
  = after_setter 1%positive
      (request 2 "set_auto_deepen" [JsBoolean true; num 5000])
      "set_auto_deepen"
      (set_auto_deepen (JsBoolean true) 5000
         (Engine.new Engine.sample_registry 1))
      opened.
Proof.
  apply (auto_deepen_threshold_arrives_exact (G := sample) no_parse in_full
           (request 2 "set_auto_deepen" [JsBoolean true; num 5000]) opened
           1%positive (Engine.new Engine.sample_registry 1)
           [JsBoolean true; num 5000] 5000).
  - reflexivity.
  - reflexivity.
  - reflexivity.
  - lia.
  - vm_compute. reflexivity.
  - vm_compute. reflexivity.
Defined.

Lemma rejected_threshold_stops_before_the_engine_witness :
  exists e,
    handle no_parse in_full (request 2 "set_auto_deepen" [JsBoolean true]) opened
    = (Throw e, opened)
    /\ ((exists what, e = TypeError what) \/ (exists what, e = RangeError what)).
Proof.
  apply (rejected_threshold_stops_before_the_engine (G := sample) no_parse in_full
           (request 2 "set_auto_deepen" [JsBoolean true]) opened 1%positive
           [JsBoolean true]).
  - reflexivity.
  - reflexivity.
  - vm_compute. reflexivity.
  - left. reflexivity.
Defined.

Lemma startup_reports_timestamp_or_message_witness :
  startup (Throw (Raised (JsObject [("message", JsString "no module")])))
    (Normal "2024") opened
  = (Normal tt, answered (InitError (JsString "no module")) opened).
Proof.
  destruct (startup_reports_timestamp_or_message (G := sample)
              (Throw (Raised (JsObject [("message", JsString "no module")])))
              (Normal "2024") opened) as (_ & Hrejected).
  destruct (Hrejected (Raised (JsObject [("message", JsString "no module")])))
    as (_ & Hobject & _).
  - left. reflexivity.
  - apply (Hobject [("message", JsString "no module")]). reflexivity.
Defined.

End SessionsOnTheSampleEngine.

Lemma last_evals_reply_is_close_witness :
  exists x z,
    posted (onmessage (G := with_counter Binding.sample (2 ^ 63 + 1))
              Binding.no_parse Binding.in_full
              (run (G := with_counter Binding.sample (2 ^ 63 + 1))
                 Binding.no_parse Binding.in_full [Binding.request 1 "new_game" []] boot)
              (Binding.request 2 "get_last_evals" []))
    = Reply (JsBigInt 2) (JsNumber x)
        :: posted (run (G := with_counter Binding.sample (2 ^ 63 + 1))
                     Binding.no_parse Binding.in_full [Binding.request 1 "new_game" []] boot)
    /\ BigInt Binding.no_parse (JsNumber x) = Normal z
    /\ Z.abs (z - (2 ^ 63 + 1)) <= 2 ^ 10.
Proof.
  apply (last_evals_reply_is_close
           (G := with_counter Binding.sample (2 ^ 63 + 1)) Binding.no_parse Binding.in_full
           (Binding.request 2 "get_last_evals" [])
           (run (G := with_counter Binding.sample (2 ^ 63 + 1))
              Binding.no_parse Binding.in_full [Binding.request 1 "new_game" []] boot)
           1%positive (Engine.new Engine.sample_registry 1) (2 ^ 63 + 1)).
  - reflexivity.
  - vm_compute. reflexivity.
  - vm_compute. reflexivity.
  - reflexivity.
  - lia.
Defined.
